(** * DoorPi: snapshot retention directory and the PJSUA2 event bridge

    A shallow embedding of
      - [doorpi/actions/snapshot.py]  (class [SnapshotAction] and its two
        capture actions), and
      - [doorpi/sipphone/from_pjsua2/__init__.py]  (function [fire_event]),
    together with the properties of the retention directory and of the
    dual-fire helper.

    Python objects the code touches are modelled as follows.
      - [str] is [string]; a string is the UTF-8 byte sequence of the text,
        and byte-wise lexicographic order on UTF-8 coincides with Python's
        code-point order on [str].
      - [pathlib.PurePosixPath] is the record [PurePath] (root and parts).
      - The file system is a finite map from paths to nodes.
      - Exceptions are the values of [exn]; a computation is a function from
        the world to a new world and a [result]. *)

From Stdlib Require Import ZArith Ascii String.
From Stdlib.Strings Require Byte.
From stdpp Require Import gmap strings list sorting fin_maps.

Local Open Scope string_scope.
Local Open Scope list_scope.
Local Open Scope Z_scope.

(* ===================================================================== *)
(** ** Lexicographic comparison (Python's ordering of [str] and [list]) *)
(* ===================================================================== *)

(** What a three-way comparison has to satisfy to be a strict total order. *)
Class CmpSpec {A : Type} (cmp : A → A → comparison) : Prop := {
  cmp_eq x y : cmp x y = Eq ↔ x = y;
  cmp_opp x y : cmp y x = CompOpp (cmp x y);
  cmp_lt_trans x y z : cmp x y = Lt → cmp y z = Lt → cmp x z = Lt
}.

(** Python compares sequences element by element; the first difference
    decides, and a proper prefix is smaller. *)
Fixpoint list_compare {A : Type} (cmp : A → A → comparison)
    (l1 l2 : list A) : comparison :=
  match l1, l2 with
  | [], [] => Eq
  | [], _ :: _ => Lt
  | _ :: _, [] => Gt
  | x :: l1', y :: l2' =>
      match cmp x y with
      | Eq => list_compare cmp l1' l2'
      | c => c
      end
  end.

(** [str.__lt__] and friends. *)
Definition str_compare (s1 s2 : string) : comparison :=
  list_compare Ascii.compare (list_ascii_of_string s1) (list_ascii_of_string s2).

(* ===================================================================== *)
(** ** pathlib: pure paths (POSIX flavour) *)
(* ===================================================================== *)

Record PurePath : Type := mkPath {
  root : string;         (* "", "/" or "//" *)
  parts : list string    (* the components below the root *)
}.

#[global] Instance PurePath_eq_dec : EqDecision PurePath.
Proof. solve_decision. Defined.

#[global] Instance PurePath_countable : Countable PurePath :=
  inj_countable' (λ p, (root p, parts p)) (λ t, mkPath t.1 t.2)
    (λ p, match p with mkPath _ _ => eq_refl end).

(** [s.split(sep)] for a one-character separator. *)
Fixpoint split_on (sep : ascii) (s : string) : list string :=
  match s with
  | EmptyString => [""]
  | String c s' =>
      if Ascii.eqb c sep then "" :: split_on sep s'
      else match split_on sep s' with
           | [] => [String c ""]
           | w :: ws => String c w :: ws
           end
  end.

Definition slash : ascii := "/"%char.

(** [_PosixFlavour.splitroot]: exactly two leading slashes are kept as the
    root, any other number of leading slashes collapses to one. *)
Definition splitroot (s : string) : string :=
  match s with
  | String c1 (String c2 (String c3 _)) =>
      if Ascii.eqb c1 slash then
        if Ascii.eqb c2 slash then (if Ascii.eqb c3 slash then "/" else "//")
        else "/"
      else ""
  | String c1 (String c2 EmptyString) =>
      if Ascii.eqb c1 slash then (if Ascii.eqb c2 slash then "//" else "/")
      else ""
  | String c1 EmptyString => if Ascii.eqb c1 slash then "/" else ""
  | EmptyString => ""
  end.

Definition is_component (x : string) : bool :=
  negb (String.eqb x "") && negb (String.eqb x ".").

(** [pathlib.Path(s)]: empty components and "." are dropped. *)
Definition Path (s : string) : PurePath :=
  mkPath (splitroot s) (List.filter is_component (split_on slash s)).

(** [p / s]: an absolute right operand replaces the left one. *)
Definition truediv (p : PurePath) (s : string) : PurePath :=
  let q := Path s in
  if String.eqb (root q) "" then mkPath (root p) (parts p ++ parts q) else q.

Fixpoint join (sep : string) (l : list string) : string :=
  match l with
  | [] => ""
  | [x] => x
  | x :: l' => x +:+ sep +:+ join sep l'
  end.

(** [str(p)]: the empty relative path prints as ".". *)
Definition str (p : PurePath) : string :=
  let s := root p +:+ join "/" (parts p) in
  if String.eqb s "" then "." else s.

(** [p.name]: the last component, or "" when there is none. *)
Definition name (p : PurePath) : string := List.last (parts p) "".

(** [p.parent]: the root and the bare relative path are their own parent. *)
Definition parent (p : PurePath) : PurePath :=
  mkPath (root p) (removelast (parts p)).

(** [p._cparts], what pathlib compares: the root, when there is one, is the
    first element. *)
Definition cparts (p : PurePath) : list string :=
  if String.eqb (root p) "" then parts p else root p :: parts p.

Definition path_compare (p q : PurePath) : comparison :=
  list_compare str_compare (cparts p) (cparts q).

(** [p <= q] on paths, as a relation the sorting function can decide. *)
Definition path_le (p q : PurePath) : Prop := path_compare p q ≠ Gt.
Definition path_lt (p q : PurePath) : Prop := path_compare p q = Lt.

#[global] Instance path_le_dec : RelDecision path_le.
Proof. intros p q. unfold path_le. solve_decision. Defined.

(* ===================================================================== *)
(** ** Exceptions and computations *)
(* ===================================================================== *)

(** The [errno] values the modelled system calls can report; Python turns
    them into the subclasses [FileNotFoundError], [FileExistsError],
    [NotADirectoryError], [IsADirectoryError] and [PermissionError] of
    [OSError]. *)
Inductive os_error : Type := ENOENT | EEXIST | ENOTDIR | EISDIR | EPERM.

Inductive exn : Type :=
  | ValueError (msg : string)
  | OSError (e : os_error)
  | RequestException      (* raised by [requests] *)
  | PiCameraError.        (* raised by [picamera] *)

Inductive result (A : Type) : Type :=
  | Ok (a : A)
  | Raise (e : exn).
Arguments Ok {A} a.
Arguments Raise {A} e.

(** A directory entry. [immutable] is the inode flag that makes [unlink]
    and opening for writing fail with [EPERM]. *)
Inductive node : Type :=
  | Dir
  | File (data : list Byte.byte) (immutable : bool).

#[global] Instance os_error_eq_dec : EqDecision os_error.
Proof. solve_decision. Defined.
#[global] Instance exn_eq_dec : EqDecision exn.
Proof. solve_decision. Defined.
#[global] Instance byte_eq_dec : EqDecision Byte.byte := Strings.Byte.byte_eq_dec.
#[global] Instance node_eq_dec : EqDecision node.
Proof. solve_decision. Defined.

(** The keys of section [DoorPi] that the snapshot actions use. A value
    that is not set reads as [None]. *)
Record Config : Type := mkConfig {
  snapshot_keep : Z;
  snapshot_path : option string;
  last_snapshot : option string
}.

Inductive level : Type := INFO | ERROR.

Record log_record : Type := mkLog {
  levelno : level;
  message : string;
  exc_info : option exn
}.

(** Everything the snapshot actions read or write. *)
Record world : Type := mkWorld {
  config : Config;
  disk : gmap PurePath node;
  journal : list log_record    (* what [LOGGER] has emitted, oldest first *)
}.

(** The world after the file system has changed to [fs]. *)
Definition with_disk (w : world) (fs : gmap PurePath node) : world :=
  mkWorld (config w) fs (journal w).

Definition M (A : Type) : Type := world → world * result A.

#[global] Instance M_ret : MRet M := λ A a w, (w, Ok a).
#[global] Instance M_bind : MBind M := λ A B k m w,
  match m w with
  | (w', Ok a) => k a w'
  | (w', Raise e) => (w', Raise e)
  end.

Definition raise {A : Type} (e : exn) : M A := λ w, (w, Raise e).

(** [try: body  except OSError: handler]; any other exception passes. *)
Definition try_except_OSError (body : M unit) (handler : os_error → M unit)
    : M unit := λ w,
  match body w with
  | (w', Raise (OSError e)) => handler e w'
  | r => r
  end.

(** [for x in l: body(x)]; an exception leaving the body ends the loop. *)
Fixpoint for_each {A : Type} (l : list A) (body : A → M unit) : M unit :=
  match l with
  | [] => mret ()
  | x :: l' => _ ← body x; for_each l' body
  end.

(** [l[0:stop]] with Python's treatment of a negative or too large [stop]. *)
Definition slice_to {A : Type} (l : list A) (stop : Z) : list A :=
  let n := Z.of_nat (length l) in
  let stop' := if stop <? 0 then Z.max 0 (n + stop) else Z.min stop n in
  take (Z.to_nat stop') l.

(* ===================================================================== *)
(** ** The file system *)
(* ===================================================================== *)

(** The root directory and the working directory always exist. *)
Definition stat (fs : gmap PurePath node) (p : PurePath) : option node :=
  match parts p with
  | [] => Some Dir
  | _ :: _ => fs !! p
  end.

Definition is_dir (fs : gmap PurePath node) (p : PurePath) : bool :=
  match stat fs p with Some Dir => true | _ => false end.

Definition is_file (fs : gmap PurePath node) (p : PurePath) : bool :=
  match stat fs p with Some (File _ _) => true | _ => false end.

(** Every entry lies in a directory. *)
Definition fs_wf (fs : gmap PurePath node) : Prop :=
  map_Forall (λ p _, is_dir fs (parent p) = true) fs.

#[global] Instance fs_wf_dec fs : Decision (fs_wf fs).
Proof. unfold fs_wf. apply _. Defined.

(** [mkdir(2)] on a file system of directories and regular files: the
    errors are the ones that the entries themselves cause. Access rights,
    read-only mounts and limits on the length of names are not part of this
    file system, and ".." is a name like any other; where the real call can
    fail for such a reason, the properties below take the outcome of the
    call as given. *)
Definition os_mkdir (p : PurePath) (fs : gmap PurePath node)
    : os_error + gmap PurePath node :=
  match parts p with
  | [] => inl EEXIST
  | _ :: _ =>
      match stat fs (parent p) with
      | None => inl ENOENT
      | Some (File _ _) => inl ENOTDIR
      | Some Dir =>
          match fs !! p with
          | Some _ => inl EEXIST
          | None => inr (<[p := Dir]> fs)
          end
      end
  end.

(** [unlink(2)]. *)
Definition os_unlink (p : PurePath) (fs : gmap PurePath node)
    : os_error + gmap PurePath node :=
  match stat fs p with
  | None => inl ENOENT
  | Some Dir => inl EISDIR
  | Some (File _ true) => inl EPERM
  | Some (File _ false) => inr (delete p fs)
  end.

(** [open(2)] with [O_WRONLY|O_CREAT|O_TRUNC], what mode "wb" asks for. *)
Definition os_open_wb (p : PurePath) (fs : gmap PurePath node)
    : os_error + gmap PurePath node :=
  match stat fs p with
  | Some Dir => inl EISDIR
  | Some (File _ true) => inl EPERM
  | Some (File _ false) => inr (<[p := File [] false]> fs)
  | None =>
      match stat fs (parent p) with
      | None => inl ENOENT
      | Some (File _ _) => inl ENOTDIR
      | Some Dir => inr (<[p := File [] false]> fs)
      end
  end.

(** [write(2)] on a file opened before: the bytes are appended. *)
Definition os_write (p : PurePath) (bytes : list Byte.byte)
    (fs : gmap PurePath node) : gmap PurePath node :=
  match fs !! p with
  | Some (File d i) => <[p := File (d ++ bytes) i]> fs
  | _ => fs
  end.

(** The entries directly below [d], in the order the map lists them (the
    order of [os.listdir] is arbitrary as well). *)
Definition children (fs : gmap PurePath node) (d : PurePath) : list PurePath :=
  List.filter (λ p, bool_decide (parent p = d ∧ parts p ≠ []))
    (map fst (map_to_list fs)).

(** Lifting a system call into a computation on the world. *)
Definition syscall (f : gmap PurePath node → os_error + gmap PurePath node)
    : M unit := λ w,
  match f (disk w) with
  | inl e => (w, Raise (OSError e))
  | inr fs' => (with_disk w fs', Ok ())
  end.

Definition get_disk : M (gmap PurePath node) := λ w, (w, Ok (disk w)).

(** [Path.mkdir(parents=False, exist_ok=True)]. *)
Definition mkdir_exist_ok (p : PurePath) : M unit := λ w,
  match os_mkdir p (disk w) with
  | inr fs' => (with_disk w fs', Ok ())
  | inl ENOENT => (w, Raise (OSError ENOENT))
  | inl e => if is_dir (disk w) p then (w, Ok ()) else (w, Raise (OSError e))
  end.

(** [Path.mkdir(parents=True, exist_ok=True)] on the path with root [r] and
    components [rev rps]; pathlib recurses on [self.parent], that is on the
    tail of the reversed components:
<<
    try: os.mkdir(self)
    except FileNotFoundError:
        if not parents or self.parent == self: raise
        self.parent.mkdir(parents=True, exist_ok=True)
        self.mkdir(mode, parents=False, exist_ok=exist_ok)
    except OSError:
        if not exist_ok or not self.is_dir(): raise
>> *)
Fixpoint mkdir_parents (r : string) (rps : list string) : M unit := λ w,
  let self := mkPath r (rev rps) in
  match os_mkdir self (disk w) with
  | inr fs' => (with_disk w fs', Ok ())
  | inl ENOENT =>
      match rps with
      | [] => (w, Raise (OSError ENOENT))
      | _ :: rps' =>
          match mkdir_parents r rps' w with
          | (w1, Ok _) => mkdir_exist_ok self w1
          | (w1, Raise e) => (w1, Raise e)
          end
      end
  | inl e => if is_dir (disk w) self then (w, Ok ()) else (w, Raise (OSError e))
  end.

Definition Path_mkdir (p : PurePath) : M unit :=
  mkdir_parents (root p) (rev (parts p)).

(** [Path.iterdir()]; a directory that exists can always be read here (no
    access rights). *)
Definition iterdir (d : PurePath) : M (list PurePath) := λ w,
  match stat (disk w) d with
  | Some Dir => (w, Ok (children (disk w) d))
  | Some (File _ _) => (w, Raise (OSError ENOTDIR))
  | None => (w, Raise (OSError ENOENT))
  end.

Definition Path_unlink (p : PurePath) : M unit := syscall (os_unlink p).
Definition Path_open_wb (p : PurePath) : M unit := syscall (os_open_wb p).

(** [output.write(bytes)] on the file opened at [p]; the disk has room for
    every write. *)
Definition file_write (p : PurePath) (bytes : list Byte.byte) : M unit :=
  λ w, (with_disk w (os_write p bytes (disk w)), Ok ()).

(** [sorted(l)] on paths. *)
Definition sorted (l : list PurePath) : list PurePath := merge_sort path_le l.

(* ===================================================================== *)
(** ** Configuration, logging, clock *)
(* ===================================================================== *)

(** Modelled from the spec: [doorpi.INSTANCE.config], whose class lives
    outside the two modules embedded here. [snapshot_keep] is an integer:
    [config.get_int(DOORPI_SECTION, "snapshot_keep")]. *)
Definition get_int_snapshot_keep : M Z :=
  λ w, (w, Ok (snapshot_keep (config w))).

(** Modelled from the spec: [snapshot_path] is a string that may be empty
    or not set: [config.get_string_parsed(DOORPI_SECTION, "snapshot_path")]. *)
Definition get_string_parsed_snapshot_path : M (option string) :=
  λ w, (w, Ok (snapshot_path (config w))).

(** Modelled from the spec: [last_snapshot] is a write-only string:
    [config.set_value(DOORPI_SECTION, "last_snapshot", v)]. *)
Definition set_value_last_snapshot (v : string) : M unit := λ w,
  (mkWorld (mkConfig (snapshot_keep (config w)) (snapshot_path (config w))
              (Some v))
           (disk w) (journal w), Ok ()).

(** [not path] for a value that is [None] or a [str]. *)
Definition falsy (v : option string) : bool :=
  match v with
  | None => true
  | Some s => String.eqb s ""
  end.

Definition the_str (v : option string) : string := default "" v.

Definition LOGGER_info (msg : string) : M unit := λ w,
  (mkWorld (config w) (disk w) (journal w ++ [mkLog INFO msg None]), Ok ()).

(** [LOGGER.exception] logs at level ERROR with the exception attached. *)
Definition LOGGER_exception (msg : string) (e : exn) : M unit := λ w,
  (mkWorld (config w) (disk w) (journal w ++ [mkLog ERROR msg (Some e)]), Ok ()).

(** [datetime.datetime]; the fields are within their calendar ranges. *)
Record datetime : Type := mkDatetime {
  year : nat; month : nat; day : nat;
  hour : nat; minute : nat; second : nat;
  microsecond : nat
}.

Definition digit (n : nat) : ascii := ascii_of_nat (48 + n mod 10)%nat.

Definition dec2 (n : nat) : string :=
  String (digit (n / 10)) (String (digit n) "").

Definition dec4 (n : nat) : string :=
  String (digit (n / 1000)) (String (digit (n / 100)) (dec2 n)).

(** [t.strftime("%Y-%m-%d %H:%M:%S.jpg")]. *)
Definition strftime (t : datetime) : string :=
  dec4 (year t) +:+ "-" +:+ dec2 (month t) +:+ "-" +:+ dec2 (day t) +:+ " "
  +:+ dec2 (hour t) +:+ ":" +:+ dec2 (minute t) +:+ ":" +:+ dec2 (second t)
  +:+ ".jpg".

(* ===================================================================== *)
(** ** doorpi/actions/snapshot.py *)
(* ===================================================================== *)

(** [SnapshotAction.get_base_path]. *)
Definition get_base_path : M PurePath :=
  path ← get_string_parsed_snapshot_path;
  if falsy path then raise (ValueError "snapshot_path must not be empty")
  else
    let path := Path (the_str path) in
    _ ← Path_mkdir path;
    mret path.

(** [SnapshotAction.get_next_path]; [now] is what [datetime.datetime.now()]
    returns. *)
Definition get_next_path (now : datetime) : M PurePath :=
  base ← get_base_path;
  let path := truediv base (strftime now) in
  _ ← set_value_last_snapshot (str path);
  mret path.

(** [SnapshotAction.list_all]. *)
Definition list_all : M (list PurePath) :=
  base ← get_base_path;
  entries ← iterdir base;
  fs ← get_disk;
  mret (sorted (List.filter (is_file fs) entries)).

(** One round of the loop in [cleanup]. *)
Definition cleanup_one (fi : PurePath) : M unit :=
  try_except_OSError
    (_ ← LOGGER_info ("Deleting old snapshot " +:+ str fi);
     Path_unlink fi)
    (λ e, LOGGER_exception ("Could not clean up snapshot " +:+ name fi)
            (OSError e)).

(** [SnapshotAction.cleanup]. *)
Definition cleanup : M unit :=
  keep ← get_int_snapshot_keep;
  if keep <=? 0 then mret ()
  else
    files ← list_all;
    for_each (slice_to files (- keep)) cleanup_one.

(** What [requests.get(url, stream=True)] and the iteration over
    [response.iter_content] do: the request fails, or chunks arrive and the
    stream then ends or breaks. *)
Inductive http : Type :=
  | GetFails
  | Streams (chunks : list (list Byte.byte)) (complete : bool).

(** [URLSnapshotAction.__call__]. *)
Definition URLSnapshotAction_call (net : http) (now : datetime) : M unit :=
  match net with
  | GetFails => raise RequestException
  | Streams chunks complete =>
      path ← get_next_path now;
      _ ← Path_open_wb path;
      _ ← for_each chunks (file_write path);
      _ ← (if complete then mret () else raise RequestException);
      cleanup
  end.

(** What the camera does: it cannot be opened, or [capture] fails (having
    written some bytes to the target or none), or [capture] writes an
    image. *)
Inductive camera : Type :=
  | CameraUnavailable
  | CaptureFails (written : option (list Byte.byte))
  | CaptureOk (image : list Byte.byte).

Definition write_file (p : PurePath) (bytes : list Byte.byte) : M unit :=
  _ ← Path_open_wb p; file_write p bytes.

(** [PicamSnapshotAction.__call__]. *)
Definition PicamSnapshotAction_call (cam : camera) (now : datetime) : M unit :=
  match cam with
  | CameraUnavailable => raise PiCameraError
  | CaptureFails written =>
      path ← get_next_path now;
      _ ← (match written with
           | Some bytes => write_file path bytes
           | None => mret ()
           end);
      raise PiCameraError
  | CaptureOk image =>
      path ← get_next_path now;
      _ ← write_file path image;
      cleanup
  end.

(* ===================================================================== *)
(** ** doorpi/sipphone/from_pjsua2/__init__.py *)
(* ===================================================================== *)

Definition EVENT_SOURCE : string := "sipphone.pjsua".

Inductive delivery : Type := Async | Sync.

Record fired : Type := mkFired {
  how : delivery;
  event_name : string;
  event_source : string;
  extra : gmap string string
}.

(** Modelled from the spec: [doorpi.INSTANCE.event_handler], whose class
    lives outside the two modules embedded here. [fire_event] schedules the
    handlers of an event and returns; it does not fail because of a handler.
    The handler object is modelled by the sequence of events it has been
    asked to deliver. *)
Definition eh_fire_event (ev src : string) (ex : gmap string string)
    (eh : list fired) : list fired := eh ++ [mkFired Async ev src ex].

(** Modelled from the spec: [fire_event_sync] runs the handlers of an event
    in the caller and returns; it does not fail because of a handler. *)
Definition eh_fire_event_sync (ev src : string) (ex : gmap string string)
    (eh : list fired) : list fired := eh ++ [mkFired Sync ev src ex].

(** [fire_event(event_name, async_only=False, *, remote_uri=None)]. *)
Definition fire_event (ev : string) (async_only : bool)
    (remote_uri : option string) (eh : list fired) : list fired :=
  let extra : gmap string string :=
    match remote_uri with
    | Some u => {["remote_uri" := u]}
    | None => ∅
    end in
  let eh := eh_fire_event ev EVENT_SOURCE extra eh in
  if negb async_only then
    eh_fire_event_sync (ev +:+ "_S") EVENT_SOURCE extra eh
  else eh.

(* ===================================================================== *)
(** ** Notions used to state the properties *)
(* ===================================================================== *)

(** The directory that [snapshot_path] names. *)
Definition base_of (w : world) : PurePath :=
  Path (the_str (snapshot_path (config w))).

(** [fs'] is [fs] with some directories added and nothing else changed. *)
Definition grows (fs fs' : gmap PurePath node) : Prop :=
  ∀ p, fs' !! p = fs !! p ∨ (fs !! p = None ∧ fs' !! p = Some Dir).

(** The directory [p] is there, and so is the entry above it. *)
Definition settled (fs : gmap PurePath node) (p : PurePath) : Prop :=
  is_dir fs p = true ∧ is_Some (stat fs (parent p)).

(** All prefixes of a list, shortest first. *)
Fixpoint prefixes {A : Type} (l : list A) : list (list A) :=
  [] :: match l with
        | [] => []
        | x :: l' => map (cons x) (prefixes l')
        end.

(** The path itself and every directory above it, topmost first. *)
Definition lineage (p : PurePath) : list PurePath :=
  map (mkPath (root p)) (prefixes (parts p)).

(** [unlink] of [p] succeeds. *)
Definition unlinkable (fs : gmap PurePath node) (p : PurePath) : bool :=
  match os_unlink p fs with inr _ => true | inl _ => false end.

(** What one round of the loop of [cleanup] adds to the log. *)
Definition report (fs : gmap PurePath node) (fi : PurePath) : list log_record :=
  mkLog INFO ("Deleting old snapshot " +:+ str fi) None ::
  match os_unlink fi fs with
  | inr _ => []
  | inl e => [mkLog ERROR ("Could not clean up snapshot " +:+ name fi)
                (Some (OSError e))]
  end.

(** What a [mkdir] call may do: the world changes only by added
    directories, and on success the target is settled. *)
Definition mkdir_post (p : PurePath) (w w' : world) (res : result unit) : Prop :=
  ∃ fs', w' = with_disk w fs' ∧ grows (disk w) fs'
         ∧ (res = Ok () → settled fs' p).

(** The regular files directly below [d], in ascending order. *)
Definition listing (fs : gmap PurePath node) (d : PurePath) : list PurePath :=
  sorted (List.filter (is_file fs) (children fs d)).

(** [p] comes strictly before [q] by file name. *)
Definition name_lt (p q : PurePath) : Prop :=
  str_compare (name p) (name q) = Lt.

(** The file system once every entry of [l] that can be unlinked is gone. *)
Definition purge (fs : gmap PurePath node) (l : list PurePath)
    : gmap PurePath node :=
  foldr delete fs (List.filter (unlinkable fs) l).

(** The candidates [files[0:-keep]] of [cleanup]. *)
Definition candidates (keep : Z) (files : list PurePath) : list PurePath :=
  slice_to files (- keep).

(** The retention claim read without regard to failing deletions: after
    [cleanup] the directory lists exactly the [snapshot_keep] greatest
    names. *)
Definition retention_exact (w : world) : Prop :=
  ∀ w1 files,
    0 < snapshot_keep (config w) → list_all w = (w1, Ok files) →
    snapshot_keep (config w) < Z.of_nat (length files) →
    ∃ w2, cleanup w = (w2, Ok ())
      ∧ list_all w2 =
          (w2, Ok (drop (length files - Z.to_nat (snapshot_keep (config w)))%nat
                     files)).

(** Two instants within one clock second. *)
Definition same_second (t t' : datetime) : Prop :=
  year t = year t' ∧ month t = month t' ∧ day t = day t'
  ∧ hour t = hour t' ∧ minute t = minute t' ∧ second t = second t'.

(** No character of [s] is the path separator. *)
Definition no_slash (s : string) : bool :=
  forallb (λ c, negb (Ascii.eqb c slash)) (list_ascii_of_string s).

(** The world after [last_snapshot] has been set to [v]. *)
Definition with_last_snapshot (w : world) (v : string) : world :=
  mkWorld (mkConfig (snapshot_keep (config w)) (snapshot_path (config w))
             (Some v))
    (disk w) (journal w).

(** The file system after the chunks have been written to [p] in turn. *)
Definition write_all (p : PurePath) (chunks : list (list Byte.byte))
    (fs : gmap PurePath node) : gmap PurePath node :=
  foldl (λ fs c, os_write p c fs) fs chunks.

(** The capture-failure claim read literally for the URL action: the call
    raises, and every regular file there is afterwards was there before. *)
Definition fails_without_trace (net : http) (now : datetime) (w : world)
    : Prop :=
  ∃ w3 e, URLSnapshotAction_call net now w = (w3, Raise e)
    ∧ ∀ q, is_file (disk w3) q = true → is_file (disk w) q = true.

(** The events a call has handed to the event handler: what the handler
    holds afterwards beyond what it held before. *)
Definition delivered (before after : list fired) : list fired :=
  drop (length before) after.

(* ===================================================================== *)
(** ** Concrete worlds *)
(* ===================================================================== *)

(** A configuration without a snapshot directory, and one that names a
    directory on an empty disk. *)
Definition wE : world := mkWorld (mkConfig 2 (Some "") None) ∅ [].
Definition wA : world := mkWorld (mkConfig 2 (Some "/var/lib/snap") None) ∅ [].

(** The snapshot directory [/snap] with the files [t1] to [t4] and a
    subdirectory; [keep] snapshots are to stay, and [locked] tells which
    files carry the immutable flag. *)
Definition snap (n : string) : PurePath := mkPath "/" ["snap"; n].

Definition disk4 (locked : string → bool) : gmap PurePath node :=
  <[snap "t4" := File [] (locked "t4")]>
    (<[snap "t1" := File [] (locked "t1")]>
       (<[snap "t3" := File [] (locked "t3")]>
          (<[snap "t2" := File [] (locked "t2")]>
             (<[snap "sub" := Dir]> (<[mkPath "/" ["snap"] := Dir]> ∅))))).

Definition w4 (keep : Z) (locked : string → bool) : world :=
  mkWorld (mkConfig keep (Some "/snap") None) (disk4 locked) [].

Definition unlocked : string → bool := λ _, false.
Definition t2_locked : string → bool := String.eqb "t2".

Definition files4 : list PurePath := [snap "t1"; snap "t2"; snap "t3"; snap "t4"].

(** A clock reading, and a stream that breaks after one chunk. *)
Definition noon : datetime := mkDatetime 2024 5 17 12 0 0 250.
Definition broken_stream : http := Streams [[Byte.x4a; Byte.x46]] false.

(** A configuration whose snapshot directory lies below the regular file
    [/snap/t1]. *)
Definition wB : world :=
  mkWorld (mkConfig 2 (Some "/snap/t1/deep") None) (disk4 unlocked) [].

(** Resolving a non-empty path at which no directory exists yet creates
    that directory and the ones above it: what this asks of one world. *)
Definition creates_when_absent (w : world) : Prop :=
  ∀ s, snapshot_path (config w) = Some s → s ≠ "" →
    stat (disk w) (Path s) = None →
    ∃ w', get_base_path w = (w', Ok (Path s))
          ∧ Forall (λ q, is_dir (disk w') q = true) (lineage (Path s)).

(** The fields of a clock reading as far as they enter the file name: a
    four-digit year (what [%Y] prints unpadded) and two-digit values
    elsewhere. Every [datetime] from the year 1000 on is in this range. *)
Definition in_range (t : datetime) : Prop :=
  1000 ≤ Z.of_nat (year t) < 10000
  ∧ (month t < 100 ∧ day t < 100
     ∧ hour t < 100 ∧ minute t < 100 ∧ second t < 100)%nat.

(** Which of two clock readings is the earlier one, down to the second. *)
Definition chron_compare (t t' : datetime) : comparison :=
  list_compare Nat.compare
    [year t; month t; day t; hour t; minute t; second t]
    [year t'; month t'; day t'; hour t'; minute t'; second t'].

(** Two clock readings of one morning, a second apart, and a third one
    within the second of the first. *)
Definition t_first : datetime := mkDatetime 2024 5 17 9 59 59 0.
Definition t_next : datetime := mkDatetime 2024 5 17 10 0 0 0.
Definition t_first_late : datetime := mkDatetime 2024 5 17 9 59 59 999.

(** The world after [data] has been stored at [p]. *)
Definition with_file (w : world) (p : PurePath) (data : list Byte.byte)
    : world :=
  with_disk w (<[p := File data false]> (disk w)).

(** A stream of two chunks that ends properly. *)
Definition good_stream : http :=
  Streams [[Byte.x4a; Byte.x46]; [Byte.x49; Byte.x46]] true.

(** A snapshot directory holding the snapshots of 09:59:59 and 10:00:00. *)
Definition disk_day : gmap PurePath node :=
  <[snap "2024-05-17 10:00:00.jpg" := File [] false]>
    (<[snap "2024-05-17 09:59:59.jpg" := File [] false]>
       (<[mkPath "/" ["snap"] := Dir]> ∅)).

Definition w_day (keep : Z) : world :=
  mkWorld (mkConfig keep (Some "/snap") None) disk_day [].

(** That directory with two snapshots to keep, after a capture at noon has
    stored [data] and the snapshot of 09:59:59 has been pruned. *)
Definition w_day_noon (data : list Byte.byte) : world :=
  mkWorld
    (mkConfig 2 (Some "/snap") (Some "/snap/2024-05-17 12:00:00.jpg"))
    (<[snap "2024-05-17 12:00:00.jpg" := File data false]>
       (delete (snap "2024-05-17 09:59:59.jpg") disk_day))
    [mkLog INFO "Deleting old snapshot /snap/2024-05-17 09:59:59.jpg" None].

(** The files of a listing whose names come after the name of [p]. *)
Definition later_names (p : PurePath) (files : list PurePath) : list PurePath :=
  List.filter
    (λ q, match str_compare (name p) (name q) with Lt => true | _ => false end)
    files.

(** A snapshot directory in which the snapshot of noon exists already and
    is immutable. *)
Definition w_noon_locked : world :=
  mkWorld (mkConfig 2 (Some "/snap") None)
    (<[snap "2024-05-17 12:00:00.jpg" := File [Byte.x4a] true]>
       (<[mkPath "/" ["snap"] := Dir]> ∅)) [].

(* ===================================================================== *)
(** ** doorpi/actions/snapshot.py: the action objects *)
(* ===================================================================== *)

(** [URLSnapshotAction]: [__init__] stores the URL. *)
Record URLSnapshotAction : Type := mkURLSnapshotAction { url : string }.

Definition URLSnapshotAction_init (u : string) : URLSnapshotAction :=
  mkURLSnapshotAction u.

(** [URLSnapshotAction.__str__]. *)
Definition URLSnapshotAction_str (self : URLSnapshotAction) : string :=
  "Save the image from " +:+ url self +:+ " as snapshot".

(** [URLSnapshotAction.__repr__]. *)
Definition URLSnapshotAction_repr (self : URLSnapshotAction) : string :=
  "snap_url:" +:+ url self.

(** [PicamSnapshotAction.__str__]. *)
Definition PicamSnapshotAction_str : string :=
  "Take a snapshot from the Pi Camera".

(** [PicamSnapshotAction.__repr__]. *)
Definition PicamSnapshotAction_repr : string := "snap_picam:".

(* ===================================================================== *)
(** ** Sanity checks of the embedding on concrete inputs *)
(* ===================================================================== *)

Example slice_to_python :
  slice_to [1; 2; 3; 4] (-2) = [1; 2]
  ∧ slice_to [1; 2] (-2) = []
  ∧ slice_to [1] (-2) = []
  ∧ slice_to [1; 2; 3] 5 = [1; 2; 3].
Proof. repeat split. Qed.

Example Path_normalises :
  Path "/var//lib/./snap/" = mkPath "/" ["var"; "lib"; "snap"]
  ∧ Path "//a" = mkPath "//" ["a"]
  ∧ Path "rel/dir" = mkPath "" ["rel"; "dir"]
  ∧ str (truediv (Path "/var/snap") "x.jpg") = "/var/snap/x.jpg"
  ∧ str (Path ".") = ".".
Proof. repeat split. Qed.

(* ===================================================================== *)
(** * Properties *)
(* ===================================================================== *)

(** ** The ordering of paths *)

Section lexicographic.
Context {A : Type} (cmp : A → A → comparison) `{!CmpSpec cmp}.

Lemma cmp_refl x : cmp x x = Eq.
Proof. by apply cmp_eq. Qed.

Lemma list_compare_refl l : list_compare cmp l l = Eq.
Proof. induction l as [|x l IH]; simpl; [done|]. by rewrite cmp_refl. Qed.

Lemma list_compare_eq l1 l2 : list_compare cmp l1 l2 = Eq ↔ l1 = l2.
Proof.
  split; [|intros ->; apply list_compare_refl].
  revert l2; induction l1 as [|x l1 IH]; intros [|y l2]; simpl; try done.
  destruct (cmp x y) eqn:E; try done.
  apply cmp_eq in E as ->. intros H. f_equal. by apply IH.
Qed.

Lemma list_compare_opp l1 l2 :
  list_compare cmp l2 l1 = CompOpp (list_compare cmp l1 l2).
Proof.
  revert l2; induction l1 as [|x l1 IH]; intros [|y l2]; simpl; try done.
  rewrite (cmp_opp x y). destruct (cmp x y); simpl; auto.
Qed.

Lemma list_compare_lt_trans l1 l2 l3 :
  list_compare cmp l1 l2 = Lt → list_compare cmp l2 l3 = Lt →
  list_compare cmp l1 l3 = Lt.
Proof.
  revert l2 l3; induction l1 as [|x l1 IH]; intros [|y l2] [|z l3];
    simpl; try done.
  destruct (cmp x y) eqn:Exy; try done.
  - apply cmp_eq in Exy as ->. destruct (cmp y z); try done. apply IH.
  - intros _. destruct (cmp y z) eqn:Eyz; try done.
    + apply cmp_eq in Eyz as ->. by rewrite Exy.
    + by rewrite (cmp_lt_trans (cmp:=cmp) x y z).
Qed.

#[local] Instance list_compare_spec : CmpSpec (list_compare cmp).
Proof.
  split; [apply list_compare_eq | intros; apply list_compare_opp
         | apply list_compare_lt_trans].
Qed.

Lemma list_compare_app l a b :
  list_compare cmp (l ++ a) (l ++ b) = list_compare cmp a b.
Proof. induction l as [|x l IH]; simpl; [done|]. by rewrite cmp_refl. Qed.
End lexicographic.

#[local] Instance ascii_compare_spec : CmpSpec Ascii.compare.
Proof.
  split; unfold Ascii.compare.
  - intros x y. rewrite N.compare_eq_iff. split; [|by intros ->].
    intros H. by rewrite <-(ascii_N_embedding x), <-(ascii_N_embedding y), H.
  - intros x y. apply N.compare_antisym.
  - intros x y z. rewrite !N.compare_lt_iff. lia.
Qed.

#[local] Instance str_compare_spec : CmpSpec str_compare.
Proof.
  split; unfold str_compare.
  - intros x y. rewrite (list_compare_eq Ascii.compare). split; [|by intros ->].
    intros H.
    by rewrite <-(string_of_list_ascii_of_string x),
      <-(string_of_list_ascii_of_string y), H.
  - intros x y. apply (list_compare_opp Ascii.compare).
  - intros x y z. apply (list_compare_lt_trans Ascii.compare).
Qed.

#[global] Instance path_le_total : Total path_le.
Proof.
  intros p q. unfold path_le, path_compare.
  rewrite (list_compare_opp str_compare (cparts p) (cparts q)).
  destruct (list_compare str_compare (cparts p) (cparts q)); simpl; auto.
Qed.

#[global] Instance path_le_trans : Transitive path_le.
Proof.
  intros p q r. unfold path_le, path_compare.
  destruct (list_compare str_compare (cparts p) (cparts q)) eqn:E1; [| |done].
  - apply (list_compare_eq str_compare) in E1. by rewrite E1.
  - intros _.
    destruct (list_compare str_compare (cparts q) (cparts r)) eqn:E2; [| |done].
    + apply (list_compare_eq str_compare) in E2. rewrite <-E2, E1. done.
    + by rewrite (list_compare_lt_trans str_compare _ _ _ E1 E2).
Qed.

Lemma path_lt_le p q : path_lt p q → path_le p q.
Proof. unfold path_lt, path_le. by intros ->. Qed.

Lemma path_lt_irrefl p : ¬ path_lt p p.
Proof.
  unfold path_lt, path_compare. by rewrite (list_compare_refl str_compare).
Qed.

(** Two entries of one directory that compare equal are the same entry. *)
Lemma siblings_compare_eq p q :
  parent p = parent q → parts p ≠ [] → parts q ≠ [] →
  path_compare p q = Eq → p = q.
Proof.
  destruct p as [r ps], q as [r' qs]. unfold parent, path_compare, cparts.
  simpl. intros [= <- Hpar] Hp Hq H.
  apply (list_compare_eq str_compare) in H.
  f_equal. destruct (String.eqb r ""); [done|]. by injection H.
Qed.

Lemma siblings_antisym p q :
  parent p = parent q → parts p ≠ [] → parts q ≠ [] →
  path_le p q → path_le q p → p = q.
Proof.
  intros Hpar Hp Hq Hpq Hqp. apply siblings_compare_eq; try done.
  unfold path_le, path_compare in *.
  rewrite (list_compare_opp str_compare (cparts p) (cparts q)) in Hqp.
  destruct (list_compare str_compare (cparts p) (cparts q)); done.
Qed.

(** ** Paths *)

Lemma parent_snoc r ps x : parent (mkPath r (ps ++ [x])) = mkPath r ps.
Proof. unfold parent. simpl. by rewrite removelast_last. Qed.

Lemma name_snoc r ps x : name (mkPath r (ps ++ [x])) = x.
Proof. unfold name. simpl. by rewrite last_last. Qed.

Lemma path_snoc p :
  parts p ≠ [] → p = mkPath (root (parent p)) (parts (parent p) ++ [name p]).
Proof.
  destruct p as [r ps]. unfold parent, name. simpl. intros H. f_equal.
  by apply app_removelast_last.
Qed.

Lemma child_ne_parent p : parts p ≠ [] → p ≠ parent p.
Proof.
  intros H E. apply (f_equal (λ q, length (parts q))) in E.
  rewrite (path_snoc p H) in E at 1. simpl in E. rewrite length_app in E.
  simpl in E. lia.
Qed.

(** ** The file system *)

Lemma stat_lookup fs p : parts p ≠ [] → stat fs p = fs !! p.
Proof. unfold stat. by destruct (parts p). Qed.

Lemma is_file_lookup fs p :
  is_file fs p = true ↔ parts p ≠ [] ∧ ∃ d i, fs !! p = Some (File d i).
Proof.
  unfold is_file, stat. destruct (parts p) eqn:E.
  - split; [done | by intros [? _]].
  - destruct (fs !! p) as [[|d i]|]; split; try done; eauto;
      by intros [_ (? & ? & ?)].
Qed.

Lemma elem_of_children fs d p :
  p ∈ children fs d ↔ parent p = d ∧ parts p ≠ [] ∧ is_Some (fs !! p).
Proof.
  unfold children. rewrite list_elem_of_In, filter_In, <-list_elem_of_In.
  rewrite bool_decide_eq_true, list_elem_of_fmap. split.
  - intros [[[q n] [-> H]] [? ?]]. apply elem_of_map_to_list in H.
    simpl in *. eauto.
  - intros (? & ? & [n H]). split; [|done]. exists (p, n). split; [done|].
    by apply elem_of_map_to_list.
Qed.

Lemma NoDup_children fs d : NoDup (children fs d).
Proof.
  unfold children. apply NoDup_ListNoDup, List.NoDup_filter, NoDup_ListNoDup.
  apply NoDup_fst_map_to_list.
Qed.

Lemma with_disk_same w : with_disk w (disk w) = w.
Proof. by destruct w. Qed.

Lemma grows_refl fs : grows fs fs.
Proof. intros p. by left. Qed.

Lemma grows_trans fs1 fs2 fs3 : grows fs1 fs2 → grows fs2 fs3 → grows fs1 fs3.
Proof.
  intros H12 H23 p. destruct (H12 p) as [E|[E1 E2]], (H23 p) as [F|[F1 F2]].
  - left. congruence.
  - right. split; congruence.
  - right. split; congruence.
  - congruence.
Qed.

Lemma grows_insert fs p : fs !! p = None → grows fs (<[p := Dir]> fs).
Proof.
  intros H q. destruct (decide (p = q)) as [<-|Hne].
  - right. by rewrite lookup_insert_eq.
  - left. by rewrite lookup_insert_ne.
Qed.

Lemma grows_stat fs fs' p n : grows fs fs' → stat fs p = Some n → stat fs' p = Some n.
Proof.
  unfold stat. intros H. destruct (parts p); [done|].
  destruct (H p) as [->|[-> _]]; done.
Qed.

Lemma grows_is_dir fs fs' p : grows fs fs' → is_dir fs p = true → is_dir fs' p = true.
Proof.
  unfold is_dir. intros H. destruct (stat fs p) as [[|]|] eqn:E; try done.
  by rewrite (grows_stat _ _ _ _ H E).
Qed.

Lemma grows_is_file fs fs' p : grows fs fs' → is_file fs' p = is_file fs p.
Proof.
  unfold is_file, stat. intros H. destruct (parts p); [done|].
  destruct (H p) as [->|[-> ->]]; done.
Qed.

(** *** mkdir *)

Lemma os_mkdir_inr p fs fs' :
  os_mkdir p fs = inr fs' →
  fs' = <[p := Dir]> fs ∧ fs !! p = None ∧ parts p ≠ []
  ∧ stat fs (parent p) = Some Dir.
Proof.
  unfold os_mkdir. destruct (parts p) eqn:E; [done|].
  destruct (stat fs (parent p)) as [[|]|]; try done.
  destruct (fs !! p) eqn:F; [done|]. by intros [= <-].
Qed.

Lemma os_mkdir_settles p fs fs' :
  os_mkdir p fs = inr fs' → grows fs fs' ∧ settled fs' p.
Proof.
  intros (-> & Hnone & Hparts & Hpar)%os_mkdir_inr.
  split; [by apply grows_insert|]. split.
  - unfold is_dir. rewrite stat_lookup by done. by rewrite lookup_insert_eq.
  - exists Dir. eapply grows_stat; [by apply grows_insert|done].
Qed.

Lemma os_mkdir_settled p fs :
  settled fs p → ∃ e, os_mkdir p fs = inl e ∧ e ≠ ENOENT.
Proof.
  intros [Hd [n Hn]]. unfold os_mkdir. destruct (parts p) eqn:E; [by eexists|].
  rewrite Hn. destruct n; [|by eexists].
  unfold is_dir in Hd. rewrite stat_lookup in Hd by (by rewrite E).
  destruct (fs !! p); [by eexists|done].
Qed.

Lemma os_mkdir_inl_parent p fs e :
  os_mkdir p fs = inl e → e ≠ ENOENT → is_Some (stat fs (parent p)).
Proof.
  unfold os_mkdir. destruct (parts p) eqn:Ep.
  - intros _ _. unfold stat, parent. rewrite Ep. by eexists.
  - destruct (stat fs (parent p)) as [[|]|]; try by eexists.
    by intros [= <-].
Qed.

Lemma mkdir_post_exists p w e e' :
  os_mkdir p (disk w) = inl e → e ≠ ENOENT → 
  mkdir_post p w w (if is_dir (disk w) p then Ok () else Raise (OSError e')).
Proof.
  intros E He. exists (disk w). rewrite with_disk_same.
  split; [done|]. split; [apply grows_refl|].
  destruct (is_dir (disk w) p) eqn:D; [|done]. intros _. split; [done|].
  by eapply os_mkdir_inl_parent.
Qed.

Lemma mkdir_exist_ok_spec p w w' res :
  mkdir_exist_ok p w = (w', res) → mkdir_post p w w' res.
Proof.
  unfold mkdir_exist_ok. destruct (os_mkdir p (disk w)) as [e|fs'] eqn:E.
  - pose proof (mkdir_post_exists p w e e E) as H.
    destruct e; try (destruct (is_dir (disk w) p); intros [= <- <-]; by apply H).
    intros [= <- <-]. exists (disk w). rewrite with_disk_same.
    split; [done|]. split; [apply grows_refl|done].
  - intros [= <- <-]. exists fs'. by apply os_mkdir_settles in E as [? ?].
Qed.

Lemma mkdir_parents_spec r rps w w' res :
  mkdir_parents r rps w = (w', res) → mkdir_post (mkPath r (rev rps)) w w' res.
Proof.
  revert w w' res. induction rps as [|x rps IH]; intros w w' res; simpl.
  - intros [= <- <-]. exists (disk w). rewrite with_disk_same.
    split; [done|]. split; [apply grows_refl|]. intros _. split; [done|].
    by eexists.
  - set (self := mkPath r (rev rps ++ [x])).
    destruct (os_mkdir self (disk w)) as [e|fs'] eqn:E.
    + pose proof (mkdir_post_exists self w e e E) as H.
      destruct e;
        try (destruct (is_dir (disk w) self); intros [= <- <-]; by apply H).
      destruct (mkdir_parents r rps w) as [w1 [[]|e1]] eqn:E1.
      * apply IH in E1 as (fs1 & -> & Hg1 & _).
        intros (fs2 & -> & Hg2 & Hs)%mkdir_exist_ok_spec. exists fs2.
        split; [done|]. split; [|done]. by eapply grows_trans.
      * apply IH in E1 as (fs1 & -> & Hg1 & _). intros [= <- <-].
        by exists fs1.
    + intros [= <- <-]. exists fs'. by apply os_mkdir_settles in E as [? ?].
Qed.

(** [mkdir] on a directory that is settled changes nothing. *)
Lemma mkdir_parents_settled r rps w :
  settled (disk w) (mkPath r (rev rps)) → mkdir_parents r rps w = (w, Ok ()).
Proof.
  intros Hs. destruct (os_mkdir_settled _ _ Hs) as (e & E & He).
  destruct Hs as [Hd _]. destruct rps as [|x rps]; simpl in *.
  - done.
  - rewrite E, Hd. by destruct e.
Qed.

Lemma Path_mkdir_spec p w w' res :
  Path_mkdir p w = (w', res) → mkdir_post p w w' res.
Proof.
  unfold Path_mkdir. intros H%mkdir_parents_spec.
  rewrite rev_involutive in H. by destruct p.
Qed.

Lemma Path_mkdir_settled p w :
  settled (disk w) p → Path_mkdir p w = (w, Ok ()).
Proof.
  intros H. apply mkdir_parents_settled. rewrite rev_involutive. by destruct p.
Qed.

(** *** Creating a directory and the ones above it *)

Lemma prefixes_snoc {A} (l : list A) x :
  prefixes (l ++ [x]) = prefixes l ++ [l ++ [x]].
Proof.
  induction l as [|y l IH]; simpl; [done|].
  rewrite IH, map_app. done.
Qed.

Lemma prefixes_self {A} (l : list A) : l ∈ prefixes l.
Proof.
  induction l as [|y l IH] using rev_ind; simpl; [by left|].
  rewrite prefixes_snoc, elem_of_app, list_elem_of_singleton. by right.
Qed.

Lemma lineage_snoc r l x :
  lineage (mkPath r (l ++ [x])) = lineage (mkPath r l) ++ [mkPath r (l ++ [x])].
Proof. unfold lineage. simpl. by rewrite prefixes_snoc, map_app. Qed.

Lemma os_mkdir_inl p fs e :
  os_mkdir p fs = inl e →
  match e with
  | ENOENT => parts p ≠ [] ∧ stat fs (parent p) = None
  | ENOTDIR => is_file fs (parent p) = true
  | EEXIST => is_Some (stat fs p)
  | _ => False
  end.
Proof.
  unfold os_mkdir, is_file. destruct (parts p) eqn:Ep.
  - intros [= <-]. unfold stat. rewrite Ep. by eexists.
  - destruct (stat fs (parent p)) as [[|]|]; try by intros [= <-].
    destruct (fs !! p) eqn:F; [|done]. intros [= <-].
    rewrite stat_lookup by (by rewrite Ep). by eexists.
Qed.

Lemma not_file_is_dir fs p :
  is_file fs p = false → is_Some (stat fs p) → is_dir fs p = true.
Proof.
  unfold is_file, is_dir. intros Hf [n Hn]. rewrite Hn in *. by destruct n.
Qed.

Lemma mkdir_exist_ok_ok p w :
  is_dir (disk w) (parent p) = true → is_file (disk w) p = false →
  ∃ w', mkdir_exist_ok p w = (w', Ok ()).
Proof.
  intros Hpar Hf. unfold mkdir_exist_ok.
  destruct (os_mkdir p (disk w)) as [e|fs'] eqn:E; [|by eexists].
  apply os_mkdir_inl in E. destruct e; try done.
  - destruct E as [_ E]. unfold is_dir in Hpar. by rewrite E in Hpar.
  - rewrite not_file_is_dir by done. by eexists.
  - unfold is_dir, is_file in *. by destruct (stat _ (parent p)) as [[|]|].
Qed.

Lemma mkdir_parents_ok r rps w :
  Forall (λ q, is_file (disk w) q = false) (lineage (mkPath r (rev rps))) →
  ∃ w', mkdir_parents r rps w = (w', Ok ()).
Proof.
  revert w. induction rps as [|x rps IH]; intros w; simpl; [by eexists|].
  rewrite lineage_snoc, Forall_app, Forall_singleton. intros [Habove Hself].
  assert (is_file (disk w) (mkPath r (rev rps)) = false) as Hp.
  { rewrite Forall_forall in Habove. apply Habove. unfold lineage. simpl.
    apply list_elem_of_fmap. eexists. split; [done|]. apply prefixes_self. }
  destruct (os_mkdir _ (disk w)) as [e|fs'] eqn:E; [|by eexists].
  apply os_mkdir_inl in E. rewrite parent_snoc in E. destruct e; try done.
  - destruct (IH w Habove) as [w1 E1]. rewrite E1.
    apply mkdir_parents_spec in E1 as (fs1 & -> & Hg & Hs).
    destruct (Hs eq_refl) as [Hd1 _]. apply mkdir_exist_ok_ok; simpl.
    + by rewrite parent_snoc.
    + by rewrite (grows_is_file _ _ _ Hg).
  - rewrite not_file_is_dir by done. by eexists.
  - congruence.
Qed.

Lemma Path_mkdir_ok p w :
  Forall (λ q, is_file (disk w) q = false) (lineage p) →
  ∃ w', Path_mkdir p w = (w', Ok ()).
Proof.
  intros H. apply mkdir_parents_ok. rewrite rev_involutive. by destruct p.
Qed.

Lemma fs_wf_insert fs p :
  fs_wf fs → is_dir fs (parent p) = true → fs !! p = None →
  fs_wf (<[p := Dir]> fs).
Proof.
  intros Hwf Hpar Hnone q n Hq.
  apply (grows_is_dir fs); [by apply grows_insert|].
  destruct (decide (p = q)) as [<-|Hne]; [done|].
  rewrite lookup_insert_ne in Hq by done. by eapply Hwf.
Qed.

Lemma os_mkdir_wf p fs fs' : fs_wf fs → os_mkdir p fs = inr fs' → fs_wf fs'.
Proof.
  intros Hwf (-> & Hnone & _ & Hpar)%os_mkdir_inr.
  apply fs_wf_insert; try done. unfold is_dir. by rewrite Hpar.
Qed.

Lemma mkdir_exist_ok_wf p w w' res :
  fs_wf (disk w) → mkdir_exist_ok p w = (w', res) → fs_wf (disk w').
Proof.
  intros Hwf. unfold mkdir_exist_ok.
  destruct (os_mkdir p (disk w)) as [e|fs'] eqn:E.
  - destruct e, (is_dir (disk w) p); by intros [= <- <-].
  - intros [= <- <-]. by eapply os_mkdir_wf.
Qed.

Lemma mkdir_parents_wf r rps w w' res :
  fs_wf (disk w) → mkdir_parents r rps w = (w', res) → fs_wf (disk w').
Proof.
  revert w w' res. induction rps as [|x rps IH]; intros w w' res Hwf; simpl.
  - by intros [= <- <-].
  - destruct (os_mkdir _ (disk w)) as [e|fs'] eqn:E.
    + destruct e;
        try (destruct (is_dir (disk w) _); by intros [= <- <-]).
      destruct (mkdir_parents r rps w) as [w1 [[]|e1]] eqn:E1.
      * intros H. eapply mkdir_exist_ok_wf; [|done]. by eapply IH.
      * intros [= <- <-]. by eapply IH.
    + intros [= <- <-]. by eapply os_mkdir_wf.
Qed.

Lemma fs_wf_settled fs p : fs_wf fs → is_dir fs p = true → settled fs p.
Proof.
  intros Hwf Hd. split; [done|]. unfold is_dir, stat in *.
  destruct (parts p) eqn:Ep.
  - unfold parent. rewrite Ep. by eexists.
  - destruct (fs !! p) as [[|]|] eqn:F; try done.
    apply Hwf in F. unfold is_dir, stat in F.
    destruct (parts (parent p)); [by eexists|].
    destruct (fs !! parent p); [by eexists|done].
Qed.

Lemma fs_wf_lineage fs p :
  fs_wf fs → is_dir fs p = true → Forall (λ q, is_dir fs q = true) (lineage p).
Proof.
  intros Hwf. destruct p as [r ps].
  induction ps as [|x ps IH] using rev_ind; intros Hd.
  - by apply Forall_singleton.
  - rewrite lineage_snoc, Forall_app, Forall_singleton. split; [|done].
    apply IH. destruct (fs_wf_settled _ _ Hwf Hd) as [_ Hp].
    rewrite parent_snoc in Hp. unfold is_dir in *.
    rewrite stat_lookup in Hd by (simpl; by destruct ps).
    destruct (fs !! _) as [[|]|] eqn:F; try done.
    apply Hwf in F. by rewrite parent_snoc in F.
Qed.

Lemma Path_mkdir_wf p w w' res :
  fs_wf (disk w) → Path_mkdir p w = (w', res) → fs_wf (disk w').
Proof. apply mkdir_parents_wf. Qed.

(** ** [get_base_path] *)

Lemma falsy_false v :
  falsy v = false ↔ ∃ s, v = Some s ∧ s ≠ "".
Proof.
  destruct v as [s|]; simpl.
  - rewrite String.eqb_neq. split; [by eexists | by intros (? & [= <-] & ?)].
  - split; [done | by intros (? & ? & ?)].
Qed.

Lemma get_base_path_unfold w :
  get_base_path w =
    if falsy (snapshot_path (config w))
    then (w, Raise (ValueError "snapshot_path must not be empty"))
    else match Path_mkdir (base_of w) w with
         | (w', Ok _) => (w', Ok (base_of w))
         | (w', Raise e) => (w', Raise e)
         end.
Proof.
  unfold get_base_path, mbind, M_bind, get_string_parsed_snapshot_path.
  by destruct (falsy _).
Qed.

Lemma get_base_path_empty w :
  falsy (snapshot_path (config w)) = true →
  get_base_path w = (w, Raise (ValueError "snapshot_path must not be empty")).
Proof. intros H. by rewrite get_base_path_unfold, H. Qed.

(** Whatever [get_base_path] returns, it has at most added directories; when
    it returns a path, that is [base_of w], and the directory is settled. *)
Lemma get_base_path_spec w w' res :
  get_base_path w = (w', res) →
  ∃ fs', w' = with_disk w fs' ∧ grows (disk w) fs'
         ∧ ∀ p, res = Ok p → p = base_of w ∧ settled fs' p
                ∧ falsy (snapshot_path (config w)) = false.
Proof.
  rewrite get_base_path_unfold. destruct (falsy _) eqn:F.
  - intros [= <- <-]. exists (disk w). rewrite with_disk_same.
    split; [done|]. split; [apply grows_refl|done].
  - destruct (Path_mkdir _ w) as [w1 [[]|e]] eqn:E;
      apply Path_mkdir_spec in E as (fs1 & -> & Hg & Hs);
      intros [= <- <-]; exists fs1; (split; [done|split; [done|]]);
      [|done]. intros p [= <-]. auto.
Qed.

Lemma get_base_path_settled w :
  falsy (snapshot_path (config w)) = false → settled (disk w) (base_of w) →
  get_base_path w = (w, Ok (base_of w)).
Proof.
  intros F Hs. by rewrite get_base_path_unfold, F, Path_mkdir_settled.
Qed.

(** Once [get_base_path] has returned a path, a second call returns it again
    and changes nothing. *)
Lemma get_base_path_again w w' p :
  get_base_path w = (w', Ok p) → get_base_path w' = (w', Ok p).
Proof.
  intros (fs' & -> & _ & H)%get_base_path_spec.
  destruct (H p eq_refl) as (-> & Hs & F).
  by apply (get_base_path_settled (with_disk w fs')).
Qed.

(** The directory [/snap] of the examples is well formed. *)
Lemma disk4_wf locked : fs_wf (disk4 locked).
Proof.
  assert (∀ b1 b2 b3 b4, fs_wf
    (<[snap "t4" := File [] b4]>
      (<[snap "t1" := File [] b1]>
         (<[snap "t3" := File [] b3]>
            (<[snap "t2" := File [] b2]>
               (<[snap "sub" := Dir]> (<[mkPath "/" ["snap"] := Dir]> ∅)))))))
    as H.
  { intros b1 b2 b3 b4 p n. rewrite !lookup_insert. rewrite lookup_empty.
    repeat case_decide; try done; intros _; subst p; reflexivity. }
  apply H.
Qed.

(** C3 (as amended). Resolving the base directory: with [snapshot_path]
    empty or not set the call raises [ValueError] (the configuration error
    of the code) and the world, hence the file system, is unchanged. With a
    non-empty path, whenever the call returns, it returns that path, it has
    only added directories, the directory and all the ones above it exist,
    and a second call returns the same path and changes nothing. A call on
    a directory that exists already returns the path and changes nothing. *)
Theorem get_base_path_resolves (w : world) :
  (snapshot_path (config w) = None ∨ snapshot_path (config w) = Some "" →
   get_base_path w = (w, Raise (ValueError "snapshot_path must not be empty")))
  ∧ (∀ s w' p, snapshot_path (config w) = Some s → s ≠ "" → fs_wf (disk w) →
       get_base_path w = (w', Ok p) →
       p = Path s
       ∧ config w' = config w ∧ journal w' = journal w
       ∧ grows (disk w) (disk w')
       ∧ Forall (λ q, is_dir (disk w') q = true) (lineage (Path s))
       ∧ get_base_path w' = (w', Ok (Path s)))
  ∧ (∀ s, snapshot_path (config w) = Some s → s ≠ "" → fs_wf (disk w) →
       is_dir (disk w) (Path s) = true →
       get_base_path w = (w, Ok (Path s))).
Proof.
  split; [|split].
  - intros H. apply get_base_path_empty. by destruct H as [-> | ->].
  - intros s w' p Hs Hne Hwf G.
    assert (falsy (snapshot_path (config w)) = false) as F
      by (apply falsy_false; eauto).
    assert (base_of w = Path s) as Hb by (unfold base_of; by rewrite Hs).
    pose proof (get_base_path_again _ _ _ G) as G2.
    pose proof G as (fs' & -> & Hg & H)%get_base_path_spec.
    destruct (H p eq_refl) as (-> & Hset & _). rewrite Hb in *.
    assert (fs_wf fs') as Hwf'.
    { rewrite get_base_path_unfold, F, Hb in G.
      destruct (Path_mkdir (Path s) w) as [w1 [[]|e]] eqn:E; [|done].
      injection G as ->. by apply (Path_mkdir_wf _ _ _ _ Hwf E). }
    simpl. repeat split; try done.
    apply fs_wf_lineage; [done|]. by apply Hset.
  - intros s Hs Hne Hwf Hd.
    assert (falsy (snapshot_path (config w)) = false) as F
      by (apply falsy_false; eauto).
    assert (base_of w = Path s) as Hb by (unfold base_of; by rewrite Hs).
    rewrite <-Hb. apply get_base_path_settled; [done|].
    rewrite Hb. by apply fs_wf_settled.
Qed.

(** An empty [snapshot_path] raises; "/var/lib/snap" on an empty disk is
    created with the directories above it; [/snap], which exists, is
    returned as it is. *)
Lemma get_base_path_resolves_witness :
  get_base_path wE = (wE, Raise (ValueError "snapshot_path must not be empty"))
  ∧ (∃ w', get_base_path wA = (w', Ok (Path "/var/lib/snap"))
           ∧ Forall (λ q, is_dir (disk w') q = true)
               (lineage (Path "/var/lib/snap"))
           ∧ get_base_path w' = (w', Ok (Path "/var/lib/snap")))
  ∧ get_base_path (w4 2 unlocked) = (w4 2 unlocked, Ok (Path "/snap")).
Proof.
  split; [|split].
  - apply (get_base_path_resolves wE). by right.
  - exists (get_base_path wA).1. split; [reflexivity|].
    destruct (proj1 (proj2 (get_base_path_resolves wA)) "/var/lib/snap"
                (get_base_path wA).1 (Path "/var/lib/snap"))
      as (_ & _ & _ & _ & H1 & H2);
      [reflexivity | discriminate | by vm_compute | reflexivity |].
    split; [exact H1 | exact H2].
  - apply (get_base_path_resolves (w4 2 unlocked));
      [reflexivity | discriminate | apply disk4_wf | reflexivity].
Defined.

(** The claim as first stated asks for the directory to be created whenever
    the path is non-empty and nothing exists there. With [/snap/t1] a
    regular file, "/snap/t1/deep" is such a path, and the call raises
    [NotADirectoryError] without creating anything. *)
Lemma get_base_path_resolves_counterexample : ¬ creates_when_absent wB.
Proof.
  intros H.
  destruct (H "/snap/t1/deep") as (w' & G & _);
    [reflexivity | discriminate | reflexivity |].
  assert (get_base_path wB = (wB, Raise (OSError ENOTDIR))) as E
    by reflexivity.
  rewrite E in G. discriminate G.
Qed.

(** ** [list_all] *)

Lemma siblings_compare_name p q :
  parent p = parent q → parts p ≠ [] → parts q ≠ [] →
  path_compare p q = str_compare (name p) (name q).
Proof.
  intros Hpar Hp Hq. rewrite (path_snoc p Hp), (path_snoc q Hq), <-Hpar.
  rewrite !name_snoc. unfold path_compare, cparts. simpl.
  destruct (String.eqb _ _).
  - rewrite (list_compare_app str_compare). simpl. by destruct (str_compare _ _).
  - rewrite !app_comm_cons, (list_compare_app str_compare). simpl.
    by destruct (str_compare _ _).
Qed.

Lemma elem_of_listing fs d p :
  p ∈ listing fs d ↔ parent p = d ∧ is_file fs p = true.
Proof.
  unfold listing, sorted. rewrite merge_sort_Permutation.
  rewrite list_elem_of_In, filter_In, <-list_elem_of_In, elem_of_children.
  rewrite is_file_lookup. split.
  - intros [(? & ? & ?) ?]. done.
  - intros [? [? (dt & i & E)]]. repeat split; try done; eauto.
Qed.

Lemma NoDup_listing fs d : NoDup (listing fs d).
Proof.
  unfold listing, sorted. rewrite merge_sort_Permutation.
  apply NoDup_ListNoDup, List.NoDup_filter, NoDup_ListNoDup, NoDup_children.
Qed.

Lemma StronglySorted_listing fs d : StronglySorted path_le (listing fs d).
Proof. apply StronglySorted_merge_sort; apply _. Qed.

Lemma StronglySorted_strengthen {A} (R R' : relation A) l :
  StronglySorted R l → NoDup l →
  (∀ x y, x ∈ l → y ∈ l → x ≠ y → R x y → R' x y) →
  StronglySorted R' l.
Proof.
  induction 1 as [|x l Hs IH Hall]; intros Hnd HR; constructor.
  - apply IH; [by eapply NoDup_cons_1_2|].
    intros a b Ha Hb. apply HR; by right.
  - apply NoDup_cons in Hnd as [Hx _]. rewrite Forall_forall in Hall |- *.
    intros y Hy. apply HR; [by left | by right | | by apply Hall].
    by intros ->.
Qed.

Lemma listing_siblings fs d p :
  p ∈ listing fs d → parent p = d ∧ parts p ≠ [].
Proof.
  rewrite elem_of_listing, is_file_lookup. by intros (? & ? & _).
Qed.

(** The listing is strictly ascending by file name. *)
Lemma listing_ascending fs d : StronglySorted name_lt (listing fs d).
Proof.
  eapply StronglySorted_strengthen;
    [apply StronglySorted_listing | apply NoDup_listing |].
  intros p q [Hp Hp']%listing_siblings [Hq Hq']%listing_siblings Hne Hle.
  unfold name_lt. rewrite <-siblings_compare_name by congruence.
  unfold path_le in Hle. destruct (path_compare p q) eqn:E; try done.
  destruct Hne. apply siblings_compare_eq; congruence.
Qed.

Lemma grows_listing fs fs' d : grows fs fs' → ∀ p, p ∈ listing fs' d ↔ p ∈ listing fs d.
Proof. intros Hg p. by rewrite !elem_of_listing, (grows_is_file _ _ _ Hg). Qed.

Lemma list_all_unfold w :
  list_all w =
    match get_base_path w with
    | (w1, Ok base) =>
        match stat (disk w1) base with
        | Some Dir => (w1, Ok (listing (disk w1) base))
        | Some (File _ _) => (w1, Raise (OSError ENOTDIR))
        | None => (w1, Raise (OSError ENOENT))
        end
    | (w1, Raise e) => (w1, Raise e)
    end.
Proof.
  unfold list_all, mbind, M_bind. destruct (get_base_path w) as [w1 [base|e]];
    [|done].
  unfold iterdir. by destruct (stat _ _) as [[|]|].
Qed.

Lemma list_all_ok w w1 base :
  get_base_path w = (w1, Ok base) → list_all w = (w1, Ok (listing (disk w1) base)).
Proof.
  intros G. rewrite list_all_unfold, G.
  apply get_base_path_spec in G as (fs1 & -> & _ & H).
  destruct (H base eq_refl) as (_ & [Hd _] & _). simpl.
  unfold is_dir in Hd. by destruct (stat fs1 base) as [[|]|].
Qed.

Lemma list_all_inv w w1 files :
  list_all w = (w1, Ok files) →
  get_base_path w = (w1, Ok (base_of w))
  ∧ files = listing (disk w1) (base_of w).
Proof.
  rewrite list_all_unfold.
  destruct (get_base_path w) as [w' [base|e]] eqn:G; [|done].
  pose proof G as (fs1 & -> & _ & H)%get_base_path_spec.
  destruct (H base eq_refl) as (-> & _ & _). simpl.
  destruct (stat fs1 _) as [[|]|]; try done. by intros [= <- <-].
Qed.

(** C5. Listing: whenever the base directory resolves, [list_all] returns;
    the result is strictly ascending by file name; it holds exactly the
    regular files directly below the base directory (so no directory and
    nothing from deeper levels); and a later call reports the directory as
    it is then, whatever happened to it in between. *)
Theorem list_all_sorted_fresh (w w1 : world) (base : PurePath) :
  get_base_path w = (w1, Ok base) →
  ∃ files, list_all w = (w1, Ok files)
    ∧ StronglySorted name_lt files
    ∧ (∀ p, p ∈ files ↔ parent p = base ∧ is_file (disk w) p = true)
    ∧ (∀ p, p ∈ files → is_dir (disk w) p = false)
    ∧ (∀ fs2 w2 files2,
         list_all (with_disk w1 fs2) = (w2, Ok files2) →
         ∀ p, p ∈ files2 ↔ parent p = base ∧ is_file fs2 p = true).
Proof.
  intros G. exists (listing (disk w1) base).
  split; [by apply list_all_ok|]. split; [apply listing_ascending|].
  pose proof G as (fs1 & -> & Hg & H)%get_base_path_spec.
  destruct (H base eq_refl) as (Hb & _ & _). simpl.
  assert (∀ p, p ∈ listing fs1 base ↔ parent p = base ∧ is_file (disk w) p = true)
    as Hin.
  { intros p. by rewrite (grows_listing _ _ _ Hg), elem_of_listing. }
  split; [done|]. split.
  - intros p [_ Hf]%Hin. unfold is_file, is_dir in *.
    by destruct (stat (disk w) p) as [[|]|].
  - intros fs2 w2 files2 [G2 ->]%list_all_inv p.
    pose proof G2 as (fs3 & -> & Hg2 & _)%get_base_path_spec. simpl in *.
    rewrite (grows_listing _ _ _ Hg2), elem_of_listing.
    by rewrite Hb.
Qed.

(** ** The loop of [cleanup] *)

Lemma cleanup_one_spec fi w :
  cleanup_one fi w =
    (mkWorld (config w) (purge (disk w) [fi])
       (journal w ++ report (disk w) fi), Ok ()).
Proof.
  unfold cleanup_one, try_except_OSError, mbind, M_bind, LOGGER_info,
    Path_unlink, syscall, purge, report, unlinkable. simpl.
  destruct (os_unlink fi (disk w)) as [e|fs'] eqn:E; simpl.
  - unfold LOGGER_exception. simpl. by rewrite <-app_assoc.
  - unfold with_disk. simpl. do 2 f_equal.
    revert E. unfold os_unlink. destruct (stat _ _) as [[|d [|]]|]; try done.
    by intros [= <-].
Qed.

Lemma stat_delete_ne fs p q : p ≠ q → stat (delete p fs) q = stat fs q.
Proof.
  intros H. unfold stat. destruct (parts q); [done|]. by rewrite lookup_delete_ne.
Qed.

Lemma os_unlink_delete_ne fs p q :
  p ≠ q →
  match os_unlink q (delete p fs), os_unlink q fs with
  | inl e, inl e' => e = e'
  | inr _, inr _ => True
  | _, _ => False
  end.
Proof.
  intros H. unfold os_unlink. rewrite stat_delete_ne by done.
  by destruct (stat fs q) as [[|d [|]]|].
Qed.

Lemma unlinkable_delete_ne fs p q :
  p ≠ q → unlinkable (delete p fs) q = unlinkable fs q.
Proof.
  intros H. unfold unlinkable. pose proof (os_unlink_delete_ne fs p q H) as Hq.
  by destruct (os_unlink q (delete p fs)), (os_unlink q fs).
Qed.

Lemma report_delete_ne fs p q :
  p ≠ q → report (delete p fs) q = report fs q.
Proof.
  intros H. unfold report. pose proof (os_unlink_delete_ne fs p q H) as Hq.
  destruct (os_unlink q (delete p fs)), (os_unlink q fs); try done.
  by subst.
Qed.

Lemma purge_one fs fi :
  purge fs [fi] = if unlinkable fs fi then delete fi fs else fs.
Proof. unfold purge. simpl. by destruct (unlinkable fs fi). Qed.

Lemma purge_cons fs fi l :
  fi ∉ l → purge (purge fs [fi]) l = purge fs (fi :: l).
Proof.
  intros Hnotin. rewrite purge_one. unfold purge. simpl.
  destruct (unlinkable fs fi) eqn:U; [|done]. simpl.
  rewrite (filter_ext_in _ (unlinkable fs)).
  - generalize (List.filter (unlinkable fs) l) as js.
    induction js as [|j js IH]; simpl; [done|].
    by rewrite IH, delete_delete.
  - intros q Hq%list_elem_of_In. apply unlinkable_delete_ne. by intros ->.
Qed.

Lemma report_purge_one fs fi l :
  fi ∉ l → flat_map (report (purge fs [fi])) l = flat_map (report fs) l.
Proof.
  intros Hnotin. rewrite purge_one. destruct (unlinkable fs fi); [|done].
  induction l as [|q l IH]; cbn [flat_map]; [done|].
  apply not_elem_of_cons in Hnotin as [Hne Hnotin].
  rewrite IH by done. by rewrite report_delete_ne.
Qed.

(** Whatever happens to the single files, the loop runs to its end. *)
Lemma cleanup_loop_spec l w :
  NoDup l →
  for_each l cleanup_one w =
    (mkWorld (config w) (purge (disk w) l)
       (journal w ++ flat_map (report (disk w)) l), Ok ()).
Proof.
  revert w. induction l as [|fi l IH]; intros w Hnd; simpl.
  - unfold mret, M_ret, purge. simpl. rewrite app_nil_r. by destruct w.
  - apply NoDup_cons in Hnd as [Hnotin Hnd].
    unfold mbind, M_bind. rewrite cleanup_one_spec, (IH _ Hnd). simpl.
    by rewrite purge_cons, report_purge_one, <-app_assoc.
Qed.

Lemma lookup_purge fs l p :
  purge fs l !! p = if decide (p ∈ l ∧ unlinkable fs p = true) then None
                    else fs !! p.
Proof.
  unfold purge. case_decide as H.
  - apply lookup_foldr_delete. rewrite list_elem_of_In, filter_In.
    by rewrite <-list_elem_of_In.
  - apply lookup_foldr_delete_not_elem_of.
    by rewrite list_elem_of_In, filter_In, <-list_elem_of_In.
Qed.

Lemma unlinkable_spec fs p :
  unlinkable fs p = true ↔ ∃ d, stat fs p = Some (File d false).
Proof.
  unfold unlinkable, os_unlink.
  destruct (stat fs p) as [[|d [|]]|]; split; try done; eauto;
    by intros [? [=]].
Qed.

Lemma unlinkable_is_file fs p : unlinkable fs p = true → is_file fs p = true.
Proof. intros [d H]%unlinkable_spec. unfold is_file. by rewrite H. Qed.

Lemma stat_purge fs l p :
  stat (purge fs l) p = if decide (p ∈ l ∧ unlinkable fs p = true) then None
                        else stat fs p.
Proof.
  unfold stat at 1. destruct (parts p) eqn:E.
  - case_decide as H; [|unfold stat; by rewrite E].
    destruct H as [_ [d H]%unlinkable_spec]. unfold stat in H.
    by rewrite E in H.
  - rewrite lookup_purge. case_decide; [done|]. unfold stat. by rewrite E.
Qed.

(** ** Slicing *)

Lemma slice_to_neg {A} (l : list A) (keep : Z) :
  0 < keep → slice_to l (- keep) = take (length l - Z.to_nat keep)%nat l.
Proof.
  intros H. unfold slice_to.
  destruct (Z.ltb_spec (- keep) 0) as [_|?]; [|lia]. f_equal. lia.
Qed.

Lemma slice_to_short {A} (l : list A) (keep : Z) :
  0 < keep → Z.of_nat (length l) ≤ keep → slice_to l (- keep) = [].
Proof.
  intros H Hl. rewrite slice_to_neg by done.
  replace (length l - Z.to_nat keep)%nat with 0%nat by lia. done.
Qed.

(** ** [cleanup] *)

Lemma cleanup_unfold w :
  cleanup w =
    if snapshot_keep (config w) <=? 0 then (w, Ok ())
    else match list_all w with
         | (w1, Ok files) =>
             for_each (candidates (snapshot_keep (config w)) files)
               cleanup_one w1
         | (w1, Raise e) => (w1, Raise e)
         end.
Proof.
  unfold cleanup, mbind, M_bind, get_int_snapshot_keep.
  by destruct (_ <=? 0).
Qed.

Lemma parts_parent_length p :
  parts p ≠ [] → length (parts p) = S (length (parts (parent p))).
Proof.
  intros H. rewrite (path_snoc p H) at 1. simpl. rewrite length_app. simpl. lia.
Qed.

Lemma parent_length_le p : (length (parts (parent p)) ≤ length (parts p))%nat.
Proof.
  destruct (decide (parts p = [])) as [E|H].
  - unfold parent. simpl. by rewrite E.
  - rewrite (parts_parent_length p H). lia.
Qed.

Lemma StronglySorted_filter {A} (R : relation A) (f : A → bool) l :
  StronglySorted R l → StronglySorted R (List.filter f l).
Proof.
  induction 1 as [|x l Hs IH Hall]; simpl; [constructor|].
  destruct (f x); [|done]. constructor; [done|].
  rewrite Forall_forall in Hall |- *. intros y Hy. apply Hall.
  apply list_elem_of_In, filter_In in Hy as [Hy _]. by apply list_elem_of_In.
Qed.

Lemma elem_of_List_filter {A} (f : A → bool) l x :
  x ∈ List.filter f l ↔ x ∈ l ∧ f x = true.
Proof. by rewrite list_elem_of_In, filter_In, <-list_elem_of_In. Qed.

(** The listing after some of the files have been unlinked is the old
    listing without them. *)
Lemma listing_purge fs base l :
  listing (purge fs l) base =
    List.filter (λ p, negb (bool_decide (p ∈ l) && unlinkable fs p))
      (listing fs base).
Proof.
  apply (StronglySorted_unique_strong path_le).
  - intros p q [Hp Hp']%listing_siblings
      [[Hq Hq']%listing_siblings _]%elem_of_List_filter.
    apply siblings_antisym; congruence.
  - apply StronglySorted_listing.
  - apply StronglySorted_filter, StronglySorted_listing.
  - apply NoDup_Permutation.
    + apply NoDup_listing.
    + apply NoDup_ListNoDup, List.NoDup_filter, NoDup_ListNoDup, NoDup_listing.
    + intros p. rewrite elem_of_List_filter, !elem_of_listing.
      unfold is_file at 1. rewrite stat_purge.
      rewrite negb_true_iff, andb_false_iff, bool_decide_eq_false.
      case_decide as H.
      * split; [by intros [_ ?]|].
        intros [_ [?|?]]; destruct H; [done|congruence].
      * fold (is_file fs p). split; [|by intros [? _]].
        intros [? ?]. split; [done|].
        destruct (decide (p ∈ l)); [right|by left].
        destruct (unlinkable fs p) eqn:U; [|done]. by destruct H.
Qed.

Lemma settled_purge fs base l :
  settled fs base → (∀ p, p ∈ l → parent p = base ∧ parts p ≠ []) →
  settled (purge fs l) base.
Proof.
  intros [Hd Hp] Hl. split.
  - unfold is_dir. rewrite stat_purge. case_decide as H; [|done].
    destruct H as [_ Hf%unlinkable_is_file]. unfold is_dir, is_file in *.
    by destruct (stat fs base) as [[|]|].
  - rewrite stat_purge. case_decide as H; [|done].
    destruct H as [[Hpar Hne]%Hl _]. exfalso.
    apply parts_parent_length in Hne. rewrite Hpar in Hne.
    pose proof (parent_length_le base). rewrite Hne in H. lia.
Qed.

Lemma NoDup_take_list {A} (l : list A) k : NoDup l → NoDup (take k l).
Proof.
  intros H. rewrite <-(take_drop k l) in H. by apply NoDup_app in H as [? _].
Qed.

(** What [cleanup] does once the listing is known. *)
Lemma cleanup_run w w1 files :
  0 < snapshot_keep (config w) → list_all w = (w1, Ok files) →
  let cands := candidates (snapshot_keep (config w)) files in
  cleanup w =
    (mkWorld (config w) (purge (disk w1) cands)
       (journal w1 ++ flat_map (report (disk w1)) cands), Ok ())
  ∧ config w1 = config w
  ∧ settled (disk w1) (base_of w)
  ∧ files = listing (disk w1) (base_of w)
  ∧ cands = take (length files - Z.to_nat (snapshot_keep (config w)))%nat files.
Proof.
  intros Hk L. simpl. rewrite cleanup_unfold, L.
  destruct (Z.leb_spec (snapshot_keep (config w)) 0) as [?|_]; [lia|].
  apply list_all_inv in L as [G ->].
  apply get_base_path_spec in G as (fs1 & -> & Hg & H).
  destruct (H _ eq_refl) as (_ & Hs & _). simpl in *.
  assert (candidates (snapshot_keep (config w)) (listing fs1 (base_of w))
          = take (length (listing fs1 (base_of w))
                  - Z.to_nat (snapshot_keep (config w)))%nat
              (listing fs1 (base_of w))) as Hc
    by (by apply slice_to_neg).
  rewrite cleanup_loop_spec.
  - done.
  - rewrite Hc. apply NoDup_take_list, NoDup_listing.
Qed.

(** C4. Failure isolation in [cleanup]: with a positive [snapshot_keep] and
    a listing at hand, [cleanup] returns normally whatever the single
    [unlink] calls do; every candidate is announced in the log, hence
    attempted; a candidate whose [unlink] fails is logged at level ERROR
    with its file name and stays as it was; every candidate whose [unlink]
    can succeed is gone afterwards. The loop behaves like this from any
    world and for any duplicate-free list of candidates, also for one that
    names a file no longer there. *)
Theorem cleanup_isolates_failures (w w1 : world) (files : list PurePath) :
  0 < snapshot_keep (config w) → list_all w = (w1, Ok files) →
  let cands := candidates (snapshot_keep (config w)) files in
  ∃ w2, cleanup w = (w2, Ok ())
    ∧ journal w2 = journal w1 ++ flat_map (report (disk w1)) cands
    ∧ (∀ fi, fi ∈ cands →
         mkLog INFO ("Deleting old snapshot " +:+ str fi) None ∈ journal w2)
    ∧ (∀ fi e, fi ∈ cands → os_unlink fi (disk w1) = inl e →
         mkLog ERROR ("Could not clean up snapshot " +:+ name fi)
           (Some (OSError e)) ∈ journal w2
         ∧ disk w2 !! fi = disk w1 !! fi)
    ∧ (∀ fi, fi ∈ cands → unlinkable (disk w1) fi = true →
         disk w2 !! fi = None)
    ∧ (∀ l w', NoDup l →
         ∃ w'', for_each l cleanup_one w' = (w'', Ok ())
                ∧ journal w'' = journal w' ++ flat_map (report (disk w')) l
                ∧ disk w'' = purge (disk w') l).
Proof.
  intros Hk L cands. destruct (cleanup_run w w1 files Hk L) as (C & _).
  eexists. split; [exact C|]. simpl. split; [done|].
  assert (∀ fi r, fi ∈ cands → r ∈ report (disk w1) fi →
            r ∈ journal w1 ++ flat_map (report (disk w1)) cands) as Hlog.
  { intros fi r Hfi Hr. apply elem_of_app. right.
    apply list_elem_of_In, in_flat_map. exists fi.
    by rewrite <-!list_elem_of_In. }
  split; [|split; [|split]].
  - intros fi Hfi. apply (Hlog fi); [done|]. unfold report. by left.
  - intros fi e Hfi He. split.
    + apply (Hlog fi); [done|]. unfold report. rewrite He. right. by left.
    + rewrite lookup_purge. case_decide as Hd; [|done].
      destruct Hd as [_ Hu]. unfold unlinkable in Hu. by rewrite He in Hu.
  - intros fi Hfi Hu. rewrite lookup_purge. by rewrite decide_True.
  - intros l w' Hnd. eexists. split; [by apply cleanup_loop_spec|done].
Qed.

(** C8. [cleanup] with [snapshot_keep] zero or negative returns at once and
    leaves the whole world as it was: nothing is listed, logged or deleted.
    With a positive [snapshot_keep] and no more files than that, [cleanup]
    ends in the world the listing left: nothing is logged, no entry is
    removed or altered (resolving the base directory can at most have added
    directories), and the listing is still the same. *)
Theorem cleanup_noop (w : world) :
  (snapshot_keep (config w) ≤ 0 → cleanup w = (w, Ok ()))
  ∧ (∀ w1 files,
       0 < snapshot_keep (config w) → list_all w = (w1, Ok files) →
       Z.of_nat (length files) ≤ snapshot_keep (config w) →
       cleanup w = (w1, Ok ())
       ∧ config w1 = config w ∧ journal w1 = journal w
       ∧ grows (disk w) (disk w1)
       ∧ list_all w1 = (w1, Ok files)).
Proof.
  split.
  - intros H. rewrite cleanup_unfold.
    by destruct (Z.leb_spec (snapshot_keep (config w)) 0) as [_|?]; [|lia].
  - intros w1 files Hk L Hlen.
    rewrite cleanup_unfold, L.
    destruct (Z.leb_spec (snapshot_keep (config w)) 0) as [?|_]; [lia|].
    unfold candidates. rewrite slice_to_short by done. simpl.
    apply list_all_inv in L as [G ->].
    pose proof (get_base_path_again _ _ _ G) as G'.
    apply list_all_ok in G'.
    apply get_base_path_spec in G as (fs1 & -> & Hg & _). done.
Qed.

(** C1 (as amended). Retention: with [snapshot_keep = N > 0] and a listing
    of [M > N] files, [cleanup] returns normally; its candidates are the
    [M - N] first files of the ascending listing, each of them before each
    of the [N] files that follow, and they are attempted in ascending order;
    no entry other than a candidate is touched; afterwards the directory
    lists the candidates whose [unlink] failed, followed by those [N] files;
    when no [unlink] fails, it lists exactly the [N] files with the greatest
    names. *)
Theorem cleanup_keeps_newest (w w1 : world) (files : list PurePath) :
  0 < snapshot_keep (config w) → list_all w = (w1, Ok files) →
  snapshot_keep (config w) < Z.of_nat (length files) →
  let k := (length files - Z.to_nat (snapshot_keep (config w)))%nat in
  ∃ w2, cleanup w = (w2, Ok ())
    ∧ candidates (snapshot_keep (config w)) files = take k files
    ∧ length (take k files) = k
    ∧ Z.of_nat (length (drop k files)) = snapshot_keep (config w)
    ∧ (∀ a b, a ∈ take k files → b ∈ drop k files → name_lt a b)
    ∧ journal w2 = journal w1 ++ flat_map (report (disk w1)) (take k files)
    ∧ (∀ p, p ∉ take k files → disk w2 !! p = disk w1 !! p)
    ∧ list_all w2 =
        (w2, Ok (List.filter (λ p, negb (unlinkable (disk w1) p)) (take k files)
                 ++ drop k files))
    ∧ (Forall (λ p, unlinkable (disk w1) p = true) (take k files) →
       list_all w2 = (w2, Ok (drop k files))).
Proof.
  intros Hk L Hlen k.
  destruct (cleanup_run w w1 files Hk L) as (C & Hcfg & Hs & Hfiles & Hc).
  fold k in Hc. simpl in Hc. rewrite Hc in C.
  eexists. split; [exact C|]. split; [done|].
  split; [rewrite length_take; lia|]. split; [rewrite length_drop; lia|].
  clear Hc. clearbody k.
  assert (StronglySorted name_lt (take k files ++ drop k files)) as Hsorted.
  { rewrite take_drop, Hfiles. apply listing_ascending. }
  split.
  { intros a b Ha Hb.
    by eapply (StronglySorted_app_1_elem_of name_lt (take k files)). }
  split; [done|]. split.
  { intros p Hp. simpl. rewrite lookup_purge. case_decide as Hd; [|done].
    by destruct Hd. }
  set (w2 := mkWorld _ _ _).
  assert (list_all w2 =
    (w2, Ok (List.filter (λ p, negb (unlinkable (disk w1) p)) (take k files)
             ++ drop k files))) as Hlist.
  { assert (get_base_path w2 = (w2, Ok (base_of w))) as G.
    { apply (get_base_path_settled w2).
      - apply list_all_inv in L as [G _].
        by apply get_base_path_spec in G as (? & ? & ? & H);
          destruct (H _ eq_refl) as (_ & _ & ?).
      - apply settled_purge; [done|]. intros p Hp%subseteq_take.
        rewrite Hfiles in Hp. by apply listing_siblings in Hp. }
    rewrite (list_all_ok _ _ _ G). do 2 f_equal. simpl.
    rewrite listing_purge, <-Hfiles.
    set (f := λ p, negb (bool_decide (p ∈ take k files) && _)).
    trans (List.filter f (take k files ++ drop k files));
      [by rewrite take_drop|].
    subst f. rewrite List.filter_app. f_equal.
    - apply filter_ext_in. intros p Hp%list_elem_of_In.
      by rewrite bool_decide_eq_true_2.
    - rewrite <-(List.filter_true (drop k files)) at 2.
      apply filter_ext_in. intros p Hp%list_elem_of_In.
      rewrite bool_decide_eq_false_2; [done|]. intros Ht.
      assert (NoDup (take k files ++ drop k files)) as Hnd
        by (rewrite take_drop, Hfiles; apply NoDup_listing).
      apply NoDup_app in Hnd as (_ & Hdis & _). by apply (Hdis p). }
  split; [done|]. intros Hall. rewrite Hlist.
  rewrite Forall_forall in Hall.
  assert (List.filter (λ p, negb (unlinkable (disk w1) p)) (take k files) = [])
    as ->; [|done].
  trans (List.filter (λ _, false) (take k files));
    [|apply List.filter_false].
  apply filter_ext_in. intros p Hp%list_elem_of_In. by rewrite Hall.
Qed.


(** ** The retention claims on a concrete directory *)

(** With [snapshot_keep = 2] and the files [t1], [t2], [t3], [t4], [cleanup]
    removes [t1] and [t2] and leaves [t3] and [t4]. *)
Lemma cleanup_keeps_newest_witness :
  ∃ w2, cleanup (w4 2 unlocked) = (w2, Ok ())
    ∧ list_all w2 = (w2, Ok [snap "t3"; snap "t4"]).
Proof.
  destruct (cleanup_keeps_newest (w4 2 unlocked) (w4 2 unlocked) files4)
    as (w2 & C & _ & _ & _ & _ & _ & _ & _ & Hall).
  - reflexivity.
  - reflexivity.
  - reflexivity.
  - exists w2. split; [exact C|]. apply Hall. repeat constructor.
Defined.

(** C1, as stated, fails where a deletion fails: with [t2] immutable and
    [snapshot_keep = 2], the files [t2], [t3] and [t4] remain, not two. *)
Lemma cleanup_keeps_newest_counterexample : ¬ retention_exact (w4 2 t2_locked).
Proof.
  intros H.
  destruct (H (w4 2 t2_locked) files4) as (w2 & C & L).
  - reflexivity.
  - reflexivity.
  - reflexivity.
  - assert ((list_all (cleanup (w4 2 t2_locked)).1).2
            = Ok [snap "t2"; snap "t3"; snap "t4"]) as L' by reflexivity.
    rewrite C in L'. cbn [fst] in L'. rewrite L in L'. discriminate L'.
Qed.

(** The same run in full: what is left and what has been logged. *)
Example cleanup_t2_locked :
  ∃ w2, cleanup (w4 2 t2_locked) = (w2, Ok ())
    ∧ list_all w2 = (w2, Ok [snap "t2"; snap "t3"; snap "t4"])
    ∧ journal w2 =
        [mkLog INFO "Deleting old snapshot /snap/t1" None;
         mkLog INFO "Deleting old snapshot /snap/t2" None;
         mkLog ERROR "Could not clean up snapshot t2" (Some (OSError EPERM))].
Proof. eexists. split; [reflexivity|]. split; reflexivity. Qed.

(** With [t2] immutable, [cleanup] still returns, logs the failure under
    the name [t2], and removes [t1]. *)
Lemma cleanup_isolates_failures_witness :
  ∃ w2, cleanup (w4 2 t2_locked) = (w2, Ok ())
    ∧ mkLog ERROR "Could not clean up snapshot t2" (Some (OSError EPERM))
        ∈ journal w2
    ∧ disk w2 !! snap "t1" = None.
Proof.
  destruct (cleanup_isolates_failures (w4 2 t2_locked) (w4 2 t2_locked) files4)
    as (w2 & C & _ & _ & Hfail & Hgone & _).
  - reflexivity.
  - reflexivity.
  - exists w2. split; [exact C|]. split.
    + apply (Hfail (snap "t2") EPERM); [|reflexivity].
      change (snap "t2" ∈ [snap "t1"; snap "t2"]). right. left.
    + apply Hgone; [|reflexivity].
      change (snap "t1" ∈ [snap "t1"; snap "t2"]). left.
Defined.

(** The listing of [/snap] is ascending and leaves out the subdirectory. *)
Lemma list_all_sorted_fresh_witness :
  ∃ files, list_all (w4 2 unlocked) = (w4 2 unlocked, Ok files)
    ∧ StronglySorted name_lt files
    ∧ (∀ p, p ∈ files ↔ parent p = mkPath "/" ["snap"]
                         ∧ is_file (disk4 unlocked) p = true).
Proof.
  destruct (list_all_sorted_fresh (w4 2 unlocked) (w4 2 unlocked)
              (mkPath "/" ["snap"])) as (files & L & S & Hin & _).
  - reflexivity.
  - exists files. split; [exact L|]. split; [exact S|exact Hin].
Defined.

(** Nothing happens with [snapshot_keep] 0 or -1, nor with four files and
    [snapshot_keep = 4]. *)
Lemma cleanup_noop_witness :
  cleanup (w4 0 unlocked) = (w4 0 unlocked, Ok ())
  ∧ cleanup (w4 (-1) unlocked) = (w4 (-1) unlocked, Ok ())
  ∧ cleanup (w4 4 unlocked) = (w4 4 unlocked, Ok ()).
Proof.
  split; [|split].
  - apply (proj1 (cleanup_noop (w4 0 unlocked))). simpl. lia.
  - apply (proj1 (cleanup_noop (w4 (-1) unlocked))). simpl. lia.
  - apply (proj2 (cleanup_noop (w4 4 unlocked)) (w4 4 unlocked) files4).
    + simpl. lia.
    + reflexivity.
    + simpl. lia.
Defined.

(** ** [get_next_path] *)

Lemma split_on_no_slash s : no_slash s = true → split_on slash s = [s].
Proof.
  unfold no_slash. induction s as [|c s IH]; simpl; [done|].
  intros [Hc Hs]%andb_true_iff. apply negb_true_iff in Hc. rewrite Hc.
  by rewrite (IH Hs).
Qed.

Lemma splitroot_no_slash s : no_slash s = true → splitroot s = "".
Proof.
  unfold no_slash. destruct s as [|c s]; simpl; [done|].
  intros [Hc _]%andb_true_iff. apply negb_true_iff in Hc.
  destruct s as [|c2 [|c3 s]]; by rewrite Hc.
Qed.

(** A name without separator that is neither empty nor "." is a path of
    one component. *)
Lemma Path_single s :
  no_slash s = true → s ≠ "" → s ≠ "." → Path s = mkPath "" [s].
Proof.
  intros Hs Hne Hdot. unfold Path.
  rewrite splitroot_no_slash, split_on_no_slash by done. simpl.
  unfold is_component. apply String.eqb_neq in Hne, Hdot.
  by rewrite Hne, Hdot.
Qed.

Lemma digit_not_slash n : Ascii.eqb (digit n) slash = false.
Proof.
  unfold digit. pose proof (Nat.mod_upper_bound n 10 ltac:(lia)) as H.
  destruct (n mod 10)%nat as [|[|[|[|[|[|[|[|[|[|m]]]]]]]]]];
    try reflexivity; lia.
Qed.

Lemma strftime_no_slash t : no_slash (strftime t) = true.
Proof.
  unfold no_slash, strftime, dec4, dec2.
  cbv [String.append list_ascii_of_string forallb].
  rewrite !digit_not_slash. reflexivity.
Qed.

Lemma Path_strftime t : Path (strftime t) = mkPath "" [strftime t].
Proof.
  apply Path_single; [apply strftime_no_slash|..];
    unfold strftime, dec4; cbv [String.append]; discriminate.
Qed.

Lemma truediv_strftime base t :
  truediv base (strftime t) = mkPath (root base) (parts base ++ [strftime t]).
Proof. unfold truediv. by rewrite Path_strftime. Qed.

(** The file name depends on the clock down to the second, not below. *)
Lemma strftime_same_second t t' : same_second t t' → strftime t = strftime t'.
Proof.
  intros (Hy & Hmo & Hd & Hh & Hmi & Hs). unfold strftime.
  by rewrite Hy, Hmo, Hd, Hh, Hmi, Hs.
Qed.

Lemma get_next_path_unfold now w :
  get_next_path now w =
    match get_base_path w with
    | (w1, Ok base) =>
        (with_last_snapshot w1 (str (truediv base (strftime now))),
         Ok (truediv base (strftime now)))
    | (w1, Raise e) => (w1, Raise e)
    end.
Proof.
  unfold get_next_path, mbind, M_bind.
  by destruct (get_base_path w) as [w1 [base|e]].
Qed.

(** C6. Allocation of the next path: once the base directory resolves to
    [base], [get_next_path] returns the path [base / name] whose name is the
    clock reading formatted as "YYYY-mm-dd HH:MM:SS.jpg"; [last_snapshot]
    then holds the string of exactly this path, whatever it held before, and
    nothing else of the world differs from what resolving the base left; a
    call at any instant of the same clock second, in the resulting world or
    in any world with the same base directory, returns the same path. *)
Theorem get_next_path_allocates (now : datetime) (w w1 : world)
    (base : PurePath) :
  get_base_path w = (w1, Ok base) →
  let path := mkPath (root base) (parts base ++ [strftime now]) in
  get_next_path now w = (with_last_snapshot w1 (str path), Ok path)
  ∧ parent path = base ∧ name path = strftime now
  ∧ last_snapshot (config (with_last_snapshot w1 (str path))) = Some (str path)
  ∧ (∀ now', same_second now now' →
       get_next_path now' (with_last_snapshot w1 (str path))
         = (with_last_snapshot w1 (str path), Ok path))
  ∧ (∀ now' w' w1', same_second now now' →
       get_base_path w' = (w1', Ok base) →
       get_next_path now' w' = (with_last_snapshot w1' (str path), Ok path)).
Proof.
  intros G path.
  assert (∀ now' w' w1', same_second now now' →
       get_base_path w' = (w1', Ok base) →
       get_next_path now' w' = (with_last_snapshot w1' (str path), Ok path))
    as Hany.
  { intros now' w' w1' Hsame G'.
    rewrite get_next_path_unfold, G', truediv_strftime.
    by rewrite <-(strftime_same_second _ _ Hsame). }
  assert (same_second now now) as Hrefl by (by repeat split).
  split; [by apply Hany|].
  split; [unfold path; rewrite parent_snoc; by destruct base|].
  split; [apply name_snoc|]. split; [done|]. split; [|done].
  intros now' Hsame.
  rewrite (Hany now' (with_last_snapshot w1 (str path))
             (with_last_snapshot w1 (str path)) Hsame); [done|].
  apply get_base_path_spec in G as (fs1 & -> & _ & H).
  destruct (H _ eq_refl) as (-> & Hs & F).
  by apply (get_base_path_settled (with_last_snapshot (with_disk w fs1) _)).
Qed.

(** The path allocated in [/snap] at 03:04:05 on 2 January 2024. *)
Lemma get_next_path_allocates_witness :
  get_next_path (mkDatetime 2024 1 2 3 4 5 678) (w4 2 unlocked)
  = (with_last_snapshot (w4 2 unlocked) "/snap/2024-01-02 03:04:05.jpg",
     Ok (snap "2024-01-02 03:04:05.jpg")).
Proof.
  destruct (get_next_path_allocates (mkDatetime 2024 1 2 3 4 5 678)
              (w4 2 unlocked) (w4 2 unlocked) (mkPath "/" ["snap"]))
    as [H _]; [reflexivity | exact H].
Defined.

(** ** The capture actions *)

Lemma for_each_file_write p chunks w :
  for_each chunks (file_write p) w
  = (with_disk w (write_all p chunks (disk w)), Ok ()).
Proof.
  revert w. induction chunks as [|c chunks IH]; intros w; simpl.
  - unfold mret, M_ret. by rewrite with_disk_same.
  - unfold mbind, M_bind, file_write at 1. by rewrite IH.
Qed.

Lemma os_open_wb_inr p fs fs3 :
  os_open_wb p fs = inr fs3 → fs3 = <[p := File [] false]> fs.
Proof.
  unfold os_open_wb. destruct (stat fs p) as [[|d [|]]|]; try done.
  - by intros [= <-].
  - destruct (stat fs (parent p)) as [[|]|]; try done. by intros [= <-].
Qed.

Lemma os_write_insert p c fs d i :
  os_write p c (<[p := File d i]> fs) = <[p := File (d ++ c) i]> fs.
Proof. unfold os_write. by rewrite lookup_insert_eq, insert_insert_eq. Qed.

Lemma write_all_insert p chunks fs d i :
  write_all p chunks (<[p := File d i]> fs)
  = <[p := File (d ++ concat chunks) i]> fs.
Proof.
  revert d. induction chunks as [|c chunks IH]; intros d.
  - simpl. by rewrite app_nil_r.
  - change (write_all p (c :: chunks) (<[p := File d i]> fs))
      with (write_all p chunks (os_write p c (<[p := File d i]> fs))).
    rewrite os_write_insert, IH. simpl. by rewrite <-app_assoc.
Qed.

Lemma URLSnapshotAction_call_unfold chunks complete now w :
  URLSnapshotAction_call (Streams chunks complete) now w =
    match get_next_path now w with
    | (w2, Ok path) =>
        match os_open_wb path (disk w2) with
        | inl e => (w2, Raise (OSError e))
        | inr fs3 =>
            let w3 := with_disk w2 (write_all path chunks fs3) in
            if complete then cleanup w3 else (w3, Raise RequestException)
        end
    | (w2, Raise e) => (w2, Raise e)
    end.
Proof.
  unfold URLSnapshotAction_call, mbind, M_bind.
  destruct (get_next_path now w) as [w2 [path|e]]; [|done].
  unfold Path_open_wb, syscall.
  destruct (os_open_wb path (disk w2)) as [e|fs3]; [done|].
  rewrite for_each_file_write. by destruct complete.
Qed.

Lemma PicamSnapshotAction_call_fails written now w :
  PicamSnapshotAction_call (CaptureFails written) now w =
    match get_next_path now w with
    | (w2, Ok path) =>
        match written with
        | None => (w2, Raise PiCameraError)
        | Some bytes =>
            match os_open_wb path (disk w2) with
            | inl e => (w2, Raise (OSError e))
            | inr fs3 =>
                (with_disk w2 (os_write path bytes fs3), Raise PiCameraError)
            end
        end
    | (w2, Raise e) => (w2, Raise e)
    end.
Proof.
  unfold PicamSnapshotAction_call, mbind, M_bind.
  destruct (get_next_path now w) as [w2 [path|e]]; [|done].
  destruct written as [bytes|]; [|done].
  unfold write_file, mbind, M_bind, Path_open_wb, syscall.
  by destruct (os_open_wb path (disk w2)).
Qed.

Lemma get_next_path_spec now w w2 path :
  get_next_path now w = (w2, Ok path) →
  ∃ fs1, w2 = with_last_snapshot (with_disk w fs1) (str path)
         ∧ grows (disk w) fs1.
Proof.
  rewrite get_next_path_unfold.
  destruct (get_base_path w) as [w1 [base|e]] eqn:G; [|done].
  apply get_base_path_spec in G as (fs1 & -> & Hg & _).
  intros [= <- <-]. by exists fs1.
Qed.

(** C10. The status slot outlives a failed capture: [get_next_path] sets
    [last_snapshot] to the returned path and writes no file; when the stream
    of the URL action breaks, or [capture] of the camera action fails, the
    call raises and [last_snapshot] still names that path; and where the
    camera has written nothing, no file exists at the path it names unless
    one was there before. *)
Theorem last_snapshot_survives_failure (now : datetime) (w w2 : world)
    (path : PurePath) :
  get_next_path now w = (w2, Ok path) →
  last_snapshot (config w2) = Some (str path)
  ∧ (∀ q, is_file (disk w2) q = is_file (disk w) q)
  ∧ (∀ chunks, ∃ w3 e,
       URLSnapshotAction_call (Streams chunks false) now w = (w3, Raise e)
       ∧ last_snapshot (config w3) = Some (str path))
  ∧ (∀ written, ∃ w3 e,
       PicamSnapshotAction_call (CaptureFails written) now w = (w3, Raise e)
       ∧ last_snapshot (config w3) = Some (str path))
  ∧ (∃ w3 e,
       PicamSnapshotAction_call (CaptureFails None) now w = (w3, Raise e)
       ∧ last_snapshot (config w3) = Some (str path)
       ∧ is_file (disk w3) path = is_file (disk w) path).
Proof.
  intros N. pose proof N as (fs1 & -> & Hg)%get_next_path_spec.
  split; [done|]. split; [intros q; by apply grows_is_file|].
  split; [|split].
  - intros chunks. rewrite URLSnapshotAction_call_unfold, N. simpl.
    destruct (os_open_wb path fs1); by do 2 eexists.
  - intros written. rewrite PicamSnapshotAction_call_fails, N.
    destruct written as [bytes|]; [|by do 2 eexists]. simpl.
    destruct (os_open_wb path fs1); by do 2 eexists.
  - rewrite PicamSnapshotAction_call_fails, N. do 2 eexists.
    split; [done|]. split; [done|]. by apply grows_is_file.
Qed.

(** After a broken stream [last_snapshot] names the path allocated at
    noon. *)
Lemma last_snapshot_survives_failure_witness :
  ∃ w3 e,
    URLSnapshotAction_call broken_stream noon (w4 2 unlocked) = (w3, Raise e)
    ∧ last_snapshot (config w3) = Some "/snap/2024-05-17 12:00:00.jpg".
Proof.
  destruct (last_snapshot_survives_failure noon (w4 2 unlocked)
              (with_last_snapshot (w4 2 unlocked)
                 "/snap/2024-05-17 12:00:00.jpg")
              (snap "2024-05-17 12:00:00.jpg"))
    as (_ & _ & H & _); [reflexivity|].
  exact (H [[Byte.x4a; Byte.x46]]).
Defined.

(** C7 (as amended). A failing capture ends the action with an exception
    and without the retention step. When the request, or opening the
    camera, fails, the world is exactly as before: no file, no log entry,
    no change of [last_snapshot]. When the stream breaks, or [capture]
    fails, after the path has been allocated, nothing is logged, no entry
    other than the allocated path is removed or altered, and the
    configuration is the one allocation left; for the URL action, once the
    target has been opened, the exception is the one of the stream and the
    target file exists, holding the chunks received so far. *)
Theorem capture_failure_aborts (now : datetime) (w : world) :
  URLSnapshotAction_call GetFails now w = (w, Raise RequestException)
  ∧ PicamSnapshotAction_call CameraUnavailable now w = (w, Raise PiCameraError)
  ∧ (∀ w2 path chunks,
       get_next_path now w = (w2, Ok path) →
       ∃ w3 e,
         URLSnapshotAction_call (Streams chunks false) now w = (w3, Raise e)
         ∧ config w3 = config w2 ∧ journal w3 = journal w
         ∧ (∀ q, q ≠ path → disk w3 !! q = disk w2 !! q)
         ∧ (∀ fs3, os_open_wb path (disk w2) = inr fs3 →
              e = RequestException
              ∧ disk w3 !! path = Some (File (concat chunks) false)))
  ∧ (∀ w2 path written,
       get_next_path now w = (w2, Ok path) →
       ∃ w3 e,
         PicamSnapshotAction_call (CaptureFails written) now w = (w3, Raise e)
         ∧ config w3 = config w2 ∧ journal w3 = journal w
         ∧ (∀ q, q ≠ path → disk w3 !! q = disk w2 !! q)).
Proof.
  split; [done|]. split; [done|]. split.
  - intros w2 path chunks N.
    pose proof N as (fs1 & -> & Hg)%get_next_path_spec.
    rewrite URLSnapshotAction_call_unfold, N. simpl.
    destruct (os_open_wb path fs1) as [e|fs3] eqn:O.
    + do 2 eexists. split; [done|]. by repeat split.
    + apply os_open_wb_inr in O as ->. rewrite write_all_insert. simpl.
      do 2 eexists. split; [done|]. split; [done|]. split; [done|].
      split.
      * intros q Hq. simpl. by rewrite lookup_insert_ne.
      * intros fs3 _. split; [done|]. simpl. by rewrite lookup_insert_eq.
  - intros w2 path written N.
    pose proof N as (fs1 & -> & Hg)%get_next_path_spec.
    rewrite PicamSnapshotAction_call_fails, N.
    destruct written as [bytes|]; [|by do 2 eexists]. simpl.
    destruct (os_open_wb path fs1) as [e|fs3] eqn:O; [by do 2 eexists|].
    apply os_open_wb_inr in O as ->. rewrite os_write_insert.
    do 2 eexists. split; [done|]. split; [done|]. split; [done|].
    intros q Hq. simpl. by rewrite lookup_insert_ne.
Qed.

(** On a stream that breaks after one chunk the URL action raises and
    leaves the chunk in a new file. *)
Lemma capture_failure_aborts_witness :
  ∃ w3 e,
    URLSnapshotAction_call broken_stream noon (w4 2 unlocked) = (w3, Raise e)
    ∧ journal w3 = []
    ∧ disk w3 !! snap "2024-05-17 12:00:00.jpg"
      = Some (File [Byte.x4a; Byte.x46] false).
Proof.
  destruct (capture_failure_aborts noon (w4 2 unlocked))
    as (_ & _ & H & _).
  destruct (H (with_last_snapshot (w4 2 unlocked)
                 "/snap/2024-05-17 12:00:00.jpg")
              (snap "2024-05-17 12:00:00.jpg") [[Byte.x4a; Byte.x46]])
    as (w3 & e & C & _ & J & _ & F); [reflexivity|].
  exists w3, e. split; [exact C|]. split; [exact J|].
  exact (proj2 (F _ eq_refl)).
Defined.

(** C7, as stated, fails for a stream that breaks: the call raises, yet a
    file that was not there before exists afterwards. *)
Lemma capture_failure_aborts_counterexample :
  ¬ fails_without_trace broken_stream noon (w4 2 unlocked).
Proof.
  intros (w3 & e & C & H).
  assert (is_file (disk (URLSnapshotAction_call broken_stream noon
                           (w4 2 unlocked)).1)
            (snap "2024-05-17 12:00:00.jpg") = true) as Hnew by reflexivity.
  rewrite C in Hnew. apply H in Hnew. discriminate Hnew.
Qed.

(** ** [fire_event] *)

Lemma delivered_app eh l : delivered eh (eh ++ l) = l.
Proof. unfold delivered. by rewrite drop_app_length. Qed.

Lemma fire_event_unfold ev async_only remote_uri eh :
  fire_event ev async_only remote_uri eh =
    eh ++
    mkFired Async ev EVENT_SOURCE
      (match remote_uri with Some u => {["remote_uri" := u]} | None => ∅ end)
    :: (if async_only then []
        else [mkFired Sync (ev +:+ "_S") EVENT_SOURCE
                (match remote_uri with
                 | Some u => {["remote_uri" := u]}
                 | None => ∅
                 end)]).
Proof.
  unfold fire_event, eh_fire_event_sync, eh_fire_event.
  destruct async_only; simpl; [done|]. by rewrite <-app_assoc.
Qed.

(** C2. Dual fire: without [async_only] the call hands exactly two events
    to the event handler, first the event itself for asynchronous delivery
    and then the event named with the suffix "_S" for synchronous delivery;
    with [async_only] it hands over the event itself and nothing else. What
    the handler held before is kept. *)
Theorem fire_event_dual (ev : string) (remote_uri : option string)
    (eh : list fired) :
  (map event_name (delivered eh (fire_event ev false remote_uri eh))
     = [ev; ev +:+ "_S"]
   ∧ map how (delivered eh (fire_event ev false remote_uri eh))
     = [Async; Sync])
  ∧ (map event_name (delivered eh (fire_event ev true remote_uri eh)) = [ev]
     ∧ map how (delivered eh (fire_event ev true remote_uri eh)) = [Async])
  ∧ (∀ async_only,
       take (length eh) (fire_event ev async_only remote_uri eh) = eh
       ∧ Forall (λ f, event_source f = EVENT_SOURCE)
           (delivered eh (fire_event ev async_only remote_uri eh))).
Proof.
  split; [|split].
  - by rewrite fire_event_unfold, delivered_app.
  - by rewrite fire_event_unfold, delivered_app.
  - intros async_only. rewrite fire_event_unfold, delivered_app. split.
    + by rewrite take_app_length.
    + destruct async_only; repeat constructor.
Qed.

(** C9. The payload: a call hands over one event when [async_only] is set
    and two otherwise, and each of them carries the same mapping: the empty
    mapping when no [remote_uri] is given, and otherwise the mapping whose
    only key is "remote_uri", bound to the given value. *)
Theorem fire_event_extra (ev : string) (async_only : bool) (eh : list fired) :
  map extra (delivered eh (fire_event ev async_only None eh))
  = (if async_only then [∅] else [∅; ∅])
  ∧ (∀ u,
       map extra (delivered eh (fire_event ev async_only (Some u) eh))
       = (if async_only then [{["remote_uri" := u]}]
          else [{["remote_uri" := u]}; {["remote_uri" := u]}])
       ∧ Forall (λ f, extra f !! "remote_uri" = Some u
                      ∧ dom (extra f) = {["remote_uri"]})
           (delivered eh (fire_event ev async_only (Some u) eh))).
Proof.
  split.
  - rewrite fire_event_unfold, delivered_app. by destruct async_only.
  - intros u. rewrite fire_event_unfold, delivered_app.
    assert (({["remote_uri" := u]} : gmap string string) !! "remote_uri"
            = Some u) as Hl by apply lookup_singleton_eq.
    assert (dom ({["remote_uri" := u]} : gmap string string)
            = {["remote_uri"]}) as Hd by apply dom_singleton_L.
    split; [by destruct async_only|].
    destruct async_only; repeat constructor; done.
Qed.

Example fire_event_x :
  map event_name (fire_event "x" false None []) = ["x"; "x_S"]
  ∧ map event_name (fire_event "x" true None []) = ["x"]
  ∧ map extra (fire_event "x" false None []) = [∅; ∅].
Proof. repeat split. Qed.

(* ===================================================================== *)
(** * Further properties *)
(* ===================================================================== *)

(** ** What resolving the base directory leaves alone *)

(** X1. Whatever [get_base_path] returns, it leaves the configuration and
    the log as they were and only adds directories: no entry is removed or
    altered, and the regular files are the same as before. A returned path
    is the one [snapshot_path] names, and it is a directory afterwards. *)
Theorem get_base_path_frame (w w' : world) (res : result PurePath) :
  get_base_path w = (w', res) →
  config w' = config w ∧ journal w' = journal w
  ∧ grows (disk w) (disk w')
  ∧ (∀ p n, disk w !! p = Some n → disk w' !! p = Some n)
  ∧ (∀ p, is_file (disk w') p = is_file (disk w) p)
  ∧ (∀ p, res = Ok p → p = base_of w ∧ is_dir (disk w') p = true).
Proof.
  intros (fs' & -> & Hg & H)%get_base_path_spec. simpl.
  split; [done|]. split; [done|]. split; [done|]. split; [|split].
  - intros p n Hp. destruct (Hg p) as [->|[E _]]; congruence.
  - intros p. by apply grows_is_file.
  - intros p Hp. destruct (H p Hp) as (-> & [Hd _] & _). done.
Qed.

(** On an empty disk "/var/lib/snap" is created; configuration and log are
    untouched. *)
Lemma get_base_path_frame_witness :
  ∃ w', (get_base_path wA).1 = w' ∧ config w' = config wA
        ∧ journal w' = journal wA.
Proof.
  destruct (get_base_path_frame wA (get_base_path wA).1 (get_base_path wA).2)
    as (Hc & Hj & _).
  - by destruct (get_base_path wA).
  - by eexists.
Defined.

(** ** When resolving the base directory fails *)

Lemma lineage_not_file_root fs r : is_file fs (mkPath r []) = false.
Proof. done. Qed.

Lemma mkdir_parents_blocked r rps w :
  fs_wf (disk w) →
  Exists (λ q, is_file (disk w) q = true) (lineage (mkPath r (rev rps))) →
  ∃ e, mkdir_parents r rps w = (w, Raise (OSError e))
       ∧ (e = ENOTDIR ∨ e = EEXIST).
Proof.
  intros Hwf. induction rps as [|x rps IH]; simpl.
  - intros H. apply Exists_cons in H as [H|H]; [done|].
    by apply Exists_nil in H.
  - rewrite lineage_snoc, Exists_app, Exists_cons, Exists_nil.
    set (self := mkPath r (rev rps ++ [x])).
    assert (parts self ≠ []) as Hparts by (simpl; by destruct (rev rps)).
    assert (parent self = mkPath r (rev rps)) as Hpar by apply parent_snoc.
    intros [Habove|[Hself|[]]].
    + destruct (os_mkdir self (disk w)) as [e|fs'] eqn:E.
      * pose proof E as E'. apply os_mkdir_inl in E'.
        rewrite Hpar in E'. destruct e; try done.
        -- destruct (IH Habove) as (e & -> & He). by exists e.
        -- exfalso. destruct E' as [n Hn].
           rewrite stat_lookup in Hn by done. apply Hwf in Hn.
           rewrite Hpar in Hn.
           pose proof (fs_wf_lineage _ _ Hwf Hn) as Hall.
           rewrite Forall_forall in Hall. apply Exists_exists in Habove
             as (q & Hq & Hf). specialize (Hall q Hq).
           unfold is_dir, is_file in *. by destruct (stat (disk w) q) as [[|]|].
        -- assert (is_dir (disk w) self = false) as ->.
           { unfold is_dir. rewrite stat_lookup by done.
             destruct (disk w !! self) eqn:F; [|done].
             apply Hwf in F. rewrite Hpar in F.
             unfold is_dir, is_file in *.
             by destruct (stat (disk w) _) as [[|]|]. }
           exists ENOTDIR. auto.
      * exfalso. apply os_mkdir_inr in E as (_ & _ & _ & Hp).
        rewrite Hpar in Hp.
        assert (is_dir (disk w) (mkPath r (rev rps)) = true) as Hd
          by (unfold is_dir; by rewrite Hp).
        pose proof (fs_wf_lineage _ _ Hwf Hd) as Hall.
        rewrite Forall_forall in Hall. apply Exists_exists in Habove
          as (q & Hq & Hf). specialize (Hall q Hq).
        unfold is_dir, is_file in *. by destruct (stat (disk w) q) as [[|]|].
    + assert (∃ d i, disk w !! self = Some (File d i)) as (d & i & F)
        by (by apply is_file_lookup in Hself as [_ ?]).
      pose proof (Hwf _ _ F) as Hp. unfold os_mkdir.
      destruct (parts self) eqn:Ep; [done|]. unfold is_dir in Hp.
      destruct (stat (disk w) (parent self)) as [[|]|]; try done.
      rewrite F. unfold is_dir. rewrite stat_lookup by (by rewrite Ep).
      rewrite F. exists EEXIST. auto.
Qed.

(** X2. A regular file in the way: with a non-empty [snapshot_path] on a
    well-formed file system, if a regular file sits at the path or at one of
    the directories above it, [get_base_path] does not return; it raises
    [OSError] and the world is unchanged, so no directory has been created
    on the way. *)
Theorem get_base_path_blocked (w : world) (s : string) :
  snapshot_path (config w) = Some s → s ≠ "" → fs_wf (disk w) →
  Exists (λ q, is_file (disk w) q = true) (lineage (Path s)) →
  (∃ e, get_base_path w = (w, Raise (OSError e)))
  ∧ (∀ w' p, get_base_path w ≠ (w', Ok p)).
Proof.
  intros Hs Hne Hwf Hex.
  assert (falsy (snapshot_path (config w)) = false) as F
    by (apply falsy_false; eauto).
  assert (base_of w = Path s) as Hb by (unfold base_of; by rewrite Hs).
  assert (∃ e, get_base_path w = (w, Raise (OSError e))) as [e G].
  { rewrite get_base_path_unfold, F, Hb.
    destruct (mkdir_parents_blocked (root (Path s)) (rev (parts (Path s))) w Hwf)
      as (e & E & _).
    - rewrite rev_involutive. by destruct (Path s).
    - unfold Path_mkdir. rewrite E. by exists e. }
  split; [by exists e|]. intros w' p. by rewrite G.
Qed.

(** Below the regular file [/snap/t1] nothing can be created. *)
Lemma get_base_path_blocked_witness :
  ∃ e, get_base_path wB = (wB, Raise (OSError e)).
Proof.
  apply (get_base_path_blocked wB "/snap/t1/deep").
  - reflexivity.
  - discriminate.
  - apply disk4_wf.
  - apply Exists_exists. exists (snap "t1"). split; [|reflexivity].
    right. right. left.
Defined.

(** ** Listing: failures and purity *)

Lemma list_all_raise w w1 e :
  list_all w = (w1, Raise e) ↔ get_base_path w = (w1, Raise e).
Proof.
  rewrite list_all_unfold.
  destruct (get_base_path w) as [w' [base|e']] eqn:G.
  - pose proof G as (fs1 & -> & _ & H)%get_base_path_spec.
    destruct (H base eq_refl) as (_ & [Hd _] & _). simpl.
    unfold is_dir in Hd. by destruct (stat fs1 base) as [[|]|].
  - split; by intros [= -> ->].
Qed.

(** X3. [list_all] passes on a failure of resolving the base directory, with
    the same exception and the same resulting world. A call that returns
    leaves configuration, log and all regular files as they were, and a
    second call returns the same listing without changing anything. *)
Theorem list_all_outcome (w w1 : world) :
  (∀ e, get_base_path w = (w1, Raise e) → list_all w = (w1, Raise e))
  ∧ (∀ files, list_all w = (w1, Ok files) →
       config w1 = config w ∧ journal w1 = journal w
       ∧ grows (disk w) (disk w1)
       ∧ (∀ p, is_file (disk w1) p = is_file (disk w) p)
       ∧ list_all w1 = (w1, Ok files)).
Proof.
  split; [intros e; apply list_all_raise|].
  intros files [G ->]%list_all_inv.
  pose proof (get_base_path_again _ _ _ G) as G'. apply list_all_ok in G'.
  apply get_base_path_spec in G as (fs1 & -> & Hg & _). simpl.
  split; [done|]. split; [done|]. split; [done|]. split; [|done].
  intros p. by apply grows_is_file.
Qed.

(** With an empty [snapshot_path] the listing fails like [get_base_path];
    the listing of a directory just created is empty, also when asked for a
    second time. *)
Lemma list_all_outcome_witness :
  list_all wE = (wE, Raise (ValueError "snapshot_path must not be empty"))
  ∧ list_all (list_all wA).1 = ((list_all wA).1, Ok []).
Proof.
  split.
  - apply (proj1 (list_all_outcome wE wE)). reflexivity.
  - apply (proj2 (list_all_outcome wA (list_all wA).1) []). reflexivity.
Defined.

(** ** [cleanup]: failures, frame, repetition *)

(** X4. With a positive [snapshot_keep], [cleanup] fails exactly as the
    listing fails, before anything is logged or deleted; in particular an
    empty or unset [snapshot_path] makes it raise [ValueError] in an
    unchanged world. With [snapshot_keep] zero or negative the same
    configuration goes unnoticed: [cleanup] returns normally. *)
Theorem cleanup_listing_error (w : world) :
  (0 < snapshot_keep (config w) →
   ∀ w1 e, list_all w = (w1, Raise e) → cleanup w = (w1, Raise e))
  ∧ (0 < snapshot_keep (config w) →
     falsy (snapshot_path (config w)) = true →
     cleanup w = (w, Raise (ValueError "snapshot_path must not be empty")))
  ∧ (snapshot_keep (config w) ≤ 0 →
     falsy (snapshot_path (config w)) = true → cleanup w = (w, Ok ())).
Proof.
  assert (0 < snapshot_keep (config w) →
   ∀ w1 e, list_all w = (w1, Raise e) → cleanup w = (w1, Raise e)) as Herr.
  { intros Hk w1 e L. rewrite cleanup_unfold, L.
    by destruct (Z.leb_spec (snapshot_keep (config w)) 0) as [?|_]; [lia|]. }
  split; [done|]. split.
  - intros Hk F. apply Herr; [done|].
    by rewrite list_all_unfold, get_base_path_empty.
  - intros Hk _. rewrite cleanup_unfold.
    by destruct (Z.leb_spec (snapshot_keep (config w)) 0) as [_|?]; [|lia].
Qed.

(** [wE] has [snapshot_keep = 2] and an empty path. *)
Lemma cleanup_listing_error_witness :
  cleanup wE = (wE, Raise (ValueError "snapshot_path must not be empty")).
Proof.
  apply (proj1 (proj2 (cleanup_listing_error wE))); [simpl; lia | reflexivity].
Defined.

(** X5. The frame of [cleanup]: however it ends, the configuration is the
    same; every directory is still there; every entry that is not directly
    below the base directory is as it was; and every entry there is
    afterwards is a directory or was there before, unaltered. So [cleanup]
    creates and rewrites no file and removes nothing but regular files
    directly below the base directory. *)
Theorem cleanup_frame (w w2 : world) (res : result unit) :
  cleanup w = (w2, res) →
  config w2 = config w
  ∧ (∀ p, disk w !! p = Some Dir → disk w2 !! p = Some Dir)
  ∧ (∀ p n, disk w !! p = Some n → parent p ≠ base_of w →
       disk w2 !! p = Some n)
  ∧ (∀ p n, disk w2 !! p = Some n → n = Dir ∨ disk w !! p = Some n).
Proof.
  rewrite cleanup_unfold.
  destruct (Z.leb_spec (snapshot_keep (config w)) 0) as [Hk|Hk].
  { intros [= <- <-]. repeat split; auto. }
  destruct (list_all w) as [w1 [files|e]] eqn:L.
  - destruct (cleanup_run w w1 files Hk L) as (C & Hcfg & Hs & Hfiles & Hc).
    rewrite cleanup_unfold, L in C.
    destruct (Z.leb_spec (snapshot_keep (config w)) 0) as [?|_]; [lia|].
    rewrite C. intros [= <- <-]. simpl.
    apply list_all_inv in L as [G _].
    apply get_base_path_spec in G as (fs1 & -> & Hg & _). simpl in *.
    assert (∀ p, p ∈ candidates (snapshot_keep (config w)) files →
                 unlinkable fs1 p = true →
                 parent p = base_of w ∧ ∃ d i, disk w !! p = Some (File d i))
      as Hcand.
    { intros p Hp Hu. rewrite Hc in Hp. apply subseteq_take in Hp.
      rewrite Hfiles in Hp. apply elem_of_listing in Hp as [Hpar Hf].
      split; [done|]. rewrite (grows_is_file _ _ _ Hg) in Hf.
      by apply is_file_lookup in Hf as [_ ?]. }
    split; [done|]. split; [|split].
    + intros p Hp. rewrite lookup_purge. case_decide as Hd.
      * destruct Hd as [Hin Hu]. destruct (Hcand p Hin Hu) as (_ & d & i & F).
        congruence.
      * destruct (Hg p) as [->|[E _]]; congruence.
    + intros p n Hp Hpar. rewrite lookup_purge. case_decide as Hd.
      * destruct Hd as [Hin Hu]. by destruct (Hcand p Hin Hu) as [? _].
      * destruct (Hg p) as [->|[E _]]; congruence.
    + intros p n. rewrite lookup_purge. case_decide as Hd; [done|].
      destruct (Hg p) as [->|[_ ->]]; [by right|]. intros [= <-]. by left.
  - intros [= <- <-]. apply list_all_raise in L.
    apply get_base_path_spec in L as (fs1 & -> & Hg & _). simpl.
    split; [done|]. split; [|split].
    + intros p Hp. destruct (Hg p) as [->|[E _]]; congruence.
    + intros p n Hp _. destruct (Hg p) as [->|[E _]]; congruence.
    + intros p n. destruct (Hg p) as [->|[_ ->]]; [by right|].
      intros [= <-]. by left.
Qed.

(** With [t2] immutable the subdirectory of [/snap] outlives [cleanup]. *)
Lemma cleanup_frame_witness :
  disk (cleanup (w4 2 t2_locked)).1 !! snap "sub" = Some Dir.
Proof.
  destruct (cleanup_frame (w4 2 t2_locked) (cleanup (w4 2 t2_locked)).1
              (cleanup (w4 2 t2_locked)).2) as (_ & Hdir & _).
  - by destruct (cleanup (w4 2 t2_locked)).
  - apply Hdir. reflexivity.
Defined.

(** The listing after [cleanup], for any number of files. *)
Lemma cleanup_then_list w w1 files :
  0 < snapshot_keep (config w) → list_all w = (w1, Ok files) →
  ∃ w2 k, cleanup w = (w2, Ok ())
    ∧ k = (length files - Z.to_nat (snapshot_keep (config w)))%nat
    ∧ config w2 = config w
    ∧ disk w2 = purge (disk w1) (take k files)
    ∧ list_all w2 =
        (w2, Ok (List.filter (λ p, negb (unlinkable (disk w1) p)) (take k files)
                 ++ drop k files)).
Proof.
  intros Hk L.
  destruct (cleanup_run w w1 files Hk L) as (C & Hcfg & Hs & Hfiles & Hc).
  simpl in Hc. rewrite Hc in C.
  set (k := (length files - Z.to_nat (snapshot_keep (config w)))%nat) in *.
  clearbody k. eexists _, k. split; [exact C|]. split; [done|].
  split; [done|]. split; [done|].
  set (w2 := mkWorld _ _ _).
  assert (get_base_path w2 = (w2, Ok (base_of w))) as G.
  { apply (get_base_path_settled w2).
    - apply list_all_inv in L as [G _].
      by apply get_base_path_spec in G as (? & ? & ? & H);
        destruct (H _ eq_refl) as (_ & _ & ?).
    - apply settled_purge; [done|]. intros p Hp%subseteq_take.
      rewrite Hfiles in Hp. by apply listing_siblings in Hp. }
  rewrite (list_all_ok _ _ _ G). do 2 f_equal. simpl.
  rewrite listing_purge, <-Hfiles.
  set (f := λ p, negb (bool_decide (p ∈ take k files) && _)).
  trans (List.filter f (take k files ++ drop k files));
    [by rewrite take_drop|].
  subst f. rewrite List.filter_app. f_equal.
  - apply filter_ext_in. intros p Hp%list_elem_of_In.
    by rewrite bool_decide_eq_true_2.
  - rewrite <-(List.filter_true (drop k files)) at 2.
    apply filter_ext_in. intros p Hp%list_elem_of_In.
    rewrite bool_decide_eq_false_2; [done|]. intros Ht.
    assert (NoDup (take k files ++ drop k files)) as Hnd
      by (rewrite take_drop, Hfiles; apply NoDup_listing).
    apply NoDup_app in Hnd as (_ & Hdis & _). by apply (Hdis p).
Qed.

Lemma unlinkable_purge fs l p :
  unlinkable fs p = false → unlinkable (purge fs l) p = false.
Proof.
  intros Hu.
  destruct (decide (p ∈ l ∧ unlinkable fs p = true)) as [[_ H]|Hd];
    [congruence|].
  unfold unlinkable at 1. unfold os_unlink.
  rewrite stat_purge, decide_False by done.
  unfold unlinkable, os_unlink in Hu.
  by destruct (stat fs p) as [[|d [|]]|].
Qed.

Lemma purge_nothing fs l :
  (∀ p, p ∈ l → unlinkable fs p = false) → purge fs l = fs.
Proof.
  intros H. unfold purge.
  assert (List.filter (unlinkable fs) l = []) as ->; [|done].
  trans (List.filter (λ _, false) l); [|apply List.filter_false].
  apply filter_ext_in. intros p Hp%list_elem_of_In. by apply H.
Qed.

(** X6. Running [cleanup] again changes nothing on disk: after a [cleanup]
    that returned normally, a second [cleanup] returns normally too and
    leaves the file system and the configuration as the first one left
    them, also when some deletions failed (they fail again). *)
Theorem cleanup_twice (w w2 : world) :
  cleanup w = (w2, Ok ()) →
  ∃ w3, cleanup w2 = (w3, Ok ())
    ∧ disk w3 = disk w2 ∧ config w3 = config w2.
Proof.
  intros C.
  destruct (Z.leb_spec (snapshot_keep (config w)) 0) as [Hk|Hk].
  { rewrite cleanup_unfold in C.
    destruct (Z.leb_spec (snapshot_keep (config w)) 0) as [_|?]; [|lia].
    injection C as <-. exists w. rewrite cleanup_unfold.
    by destruct (Z.leb_spec (snapshot_keep (config w)) 0) as [_|?]; [|lia]. }
  destruct (list_all w) as [w1 [files|e]] eqn:L.
  2:{ rewrite cleanup_unfold, L in C.
      by destruct (Z.leb_spec (snapshot_keep (config w)) 0) as [?|_]; [lia|]. }
  destruct (cleanup_then_list w w1 files Hk L)
    as (w2' & k & C' & Hkdef & Hcfg & Hdisk & L2).
  rewrite C in C'. injection C' as <-.
  assert (0 < snapshot_keep (config w2)) as Hk2 by (by rewrite Hcfg).
  destruct (cleanup_run w2 w2 _ Hk2 L2) as (C2 & _ & _ & _ & Hc2).
  simpl in Hc2. eexists. split; [exact C2|]. split; [|done]. simpl.
  rewrite Hc2. apply purge_nothing. intros p Hp.
  set (F := List.filter (λ p, negb (unlinkable (disk w1) p)) (take k files))
    in *.
  assert (p ∈ F) as HpF.
  { assert (length (drop k files)
            ≤ Z.to_nat (snapshot_keep (config w2)))%nat as Hd
      by (rewrite length_drop, Hcfg; lia).
    rewrite length_app in Hp.
    apply elem_of_take in Hp as (i & Hi & Hlt).
    rewrite lookup_app_l in Hi by lia. by eapply list_elem_of_lookup_2. }
  apply elem_of_List_filter in HpF as [_ Hu]. apply negb_true_iff in Hu.
  rewrite Hdisk. by apply unlinkable_purge.
Qed.


(** With [t2] immutable a second [cleanup] finds [t2] again and leaves the
    three files. *)
Lemma cleanup_twice_witness :
  ∃ w3, cleanup (cleanup (w4 2 t2_locked)).1 = (w3, Ok ())
    ∧ disk w3 = disk (cleanup (w4 2 t2_locked)).1.
Proof.
  destruct (cleanup_twice (w4 2 t2_locked) (cleanup (w4 2 t2_locked)).1)
    as (w3 & C & Hd & _); [reflexivity|].
  exists w3. split; [exact C | exact Hd].
Defined.

(** ** File names and the clock *)

Lemma append_cons a s t : String a s +:+ t = String a (s +:+ t).
Proof. reflexivity. Qed.

Lemma append_nil_l t : "" +:+ t = t.
Proof. reflexivity. Qed.

Lemma list_ascii_of_string_app s t :
  list_ascii_of_string (s +:+ t)
  = list_ascii_of_string s ++ list_ascii_of_string t.
Proof.
  induction s as [|a s IH]; [done|].
  rewrite append_cons. simpl. by rewrite IH.
Qed.

Lemma list_compare_app_same_length {A} (cmp : A → A → comparison)
    (a1 a2 r1 r2 : list A) :
  length a1 = length a2 →
  list_compare cmp (a1 ++ r1) (a2 ++ r2)
  = match list_compare cmp a1 a2 with
    | Eq => list_compare cmp r1 r2
    | c => c
    end.
Proof.
  revert a2. induction a1 as [|x a1 IH]; intros [|y a2]; simpl; try done.
  intros [= Hlen]. destruct (cmp x y); [by apply IH|done|done].
Qed.

Lemma str_compare_app a1 a2 r1 r2 :
  length (list_ascii_of_string a1) = length (list_ascii_of_string a2) →
  str_compare (a1 +:+ r1) (a2 +:+ r2)
  = match str_compare a1 a2 with
    | Eq => str_compare r1 r2
    | c => c
    end.
Proof.
  intros H. unfold str_compare. rewrite !list_ascii_of_string_app.
  by apply list_compare_app_same_length.
Qed.

Lemma nat_compare_embed (f : nat → nat) a b :
  (∀ x y, x < y → f x < f y)%nat → (f a ?= f b)%nat = (a ?= b)%nat.
Proof.
  intros Hf. destruct (Nat.compare_spec a b) as [->|H|H].
  - apply Nat.compare_refl.
  - apply Nat.compare_lt_iff. by apply Hf.
  - apply Nat.compare_gt_iff. by apply Hf.
Qed.

Lemma ascii_compare_digit a b :
  (a < 10)%nat → (b < 10)%nat →
  Ascii.compare (digit a) (digit b) = (a ?= b)%nat.
Proof.
  intros Ha Hb. unfold Ascii.compare, digit, ascii_of_nat.
  rewrite !N_ascii_embedding by (rewrite !Nat.mod_small by done; lia).
  rewrite <-Nat2N.inj_compare, !Nat.mod_small by done.
  apply (nat_compare_embed (λ x, 48 + x)%nat). intros; lia.
Qed.

Lemma nat_compare_divmod a b m :
  (0 < m)%nat →
  match (a / m ?= b / m)%nat with
  | Eq => (a mod m ?= b mod m)%nat
  | c => c
  end = (a ?= b)%nat.
Proof.
  intros Hm.
  pose proof (Nat.div_mod a m ltac:(lia)) as Ha.
  pose proof (Nat.div_mod b m ltac:(lia)) as Hb.
  pose proof (Nat.mod_upper_bound a m ltac:(lia)) as Ha'.
  pose proof (Nat.mod_upper_bound b m ltac:(lia)) as Hb'.
  symmetry.
  destruct (Nat.compare_spec (a / m) (b / m)) as [E|H|H].
  - destruct (Nat.compare_spec (a mod m) (b mod m)) as [E'|H'|H'].
    + apply Nat.compare_eq_iff. congruence.
    + apply Nat.compare_lt_iff. rewrite Ha, Hb, E. lia.
    + apply Nat.compare_gt_iff. rewrite Ha, Hb, E. lia.
  - apply Nat.compare_lt_iff. rewrite Ha, Hb. nia.
  - apply Nat.compare_gt_iff. rewrite Ha, Hb. nia.
Qed.

Lemma digit_mod n : digit (n mod 10) = digit n.
Proof. unfold digit. by rewrite Nat.Div0.mod_mod. Qed.

Lemma str_compare_dec2 a b :
  (a < 100)%nat → (b < 100)%nat →
  str_compare (dec2 a) (dec2 b) = (a ?= b)%nat.
Proof.
  intros Ha Hb. unfold str_compare, dec2.
  cbn [list_ascii_of_string list_compare].
  rewrite <-(digit_mod a), <-(digit_mod b).
  rewrite !ascii_compare_digit;
    try (apply Nat.mod_upper_bound; lia);
    try (apply Nat.Div0.div_lt_upper_bound; lia).
  rewrite <-(nat_compare_divmod a b 10) by lia.
  destruct (a / 10 ?= b / 10)%nat; [|done|done].
  by destruct (a mod 10 ?= b mod 10)%nat.
Qed.

Lemma dec4_split n : dec4 n = dec2 (n / 100) +:+ dec2 (n mod 100).
Proof.
  unfold dec4, dec2. rewrite !append_cons, append_nil_l. unfold digit.
  assert (n / 1000 = n / 100 / 10)%nat as -> by (by rewrite Nat.Div0.div_div).
  change 100%nat with (10 * 10)%nat.
  assert ((n / 10) mod 10 = (n mod (10 * 10) / 10) mod 10)%nat as ->.
  { rewrite (Nat.Div0.mod_mul_r n 10 10).
    rewrite (Nat.mul_comm 10), Nat.div_add by lia.
    rewrite (Nat.div_small (n mod 10)) by (apply Nat.mod_upper_bound; lia).
    by rewrite Nat.add_0_l, Nat.Div0.mod_mod. }
  assert (n mod 10 = (n mod (10 * 10)) mod 10)%nat as ->; [|done].
  rewrite (Nat.Div0.mod_mul_r n 10 10).
  rewrite (Nat.mul_comm 10), Nat.Div0.mod_add. by rewrite Nat.Div0.mod_mod.
Qed.

Lemma str_compare_dec4 a b :
  Z.of_nat a < 10000 → Z.of_nat b < 10000 →
  str_compare (dec4 a) (dec4 b) = (a ?= b)%nat.
Proof.
  intros Ha Hb. rewrite !dec4_split, str_compare_app by done.
  rewrite !str_compare_dec2;
    try (apply Nat.mod_upper_bound; lia);
    try (apply Nat.Div0.div_lt_upper_bound; lia).
  apply (nat_compare_divmod a b 100). lia.
Qed.

(** The names compare as the clock readings do. *)
Lemma str_compare_strftime t t' :
  in_range t → in_range t' →
  str_compare (strftime t) (strftime t') = chron_compare t t'.
Proof.
  intros (Hy & Hmo & Hd & Hh & Hmi & Hs) (Hy' & Hmo' & Hd' & Hh' & Hmi' & Hs').
  unfold strftime, chron_compare.
  rewrite str_compare_app, str_compare_dec4 by (done || lia).
  rewrite (str_compare_app "-" "-") by done.
  rewrite str_compare_app, str_compare_dec2 by done.
  rewrite (str_compare_app "-" "-") by done.
  rewrite str_compare_app, str_compare_dec2 by done.
  rewrite (str_compare_app " " " ") by done.
  rewrite str_compare_app, str_compare_dec2 by done.
  rewrite (str_compare_app ":" ":") by done.
  rewrite str_compare_app, str_compare_dec2 by done.
  rewrite (str_compare_app ":" ":") by done.
  rewrite str_compare_app, str_compare_dec2 by done.
  simpl.
  destruct (year t ?= year t')%nat; [|done|done].
  destruct (month t ?= month t')%nat; [|done|done].
  destruct (day t ?= day t')%nat; [|done|done].
  destruct (hour t ?= hour t')%nat; [|done|done].
  destruct (minute t ?= minute t')%nat; [|done|done].
  by destruct (second t ?= second t')%nat.
Qed.

Lemma chron_compare_eq t t' : chron_compare t t' = Eq ↔ same_second t t'.
Proof.
  unfold chron_compare, same_second. simpl.
  destruct (Nat.compare_spec (year t) (year t')); [|split; [done|lia]..].
  destruct (Nat.compare_spec (month t) (month t')); [|split; [done|lia]..].
  destruct (Nat.compare_spec (day t) (day t')); [|split; [done|lia]..].
  destruct (Nat.compare_spec (hour t) (hour t')); [|split; [done|lia]..].
  destruct (Nat.compare_spec (minute t) (minute t')); [|split; [done|lia]..].
  destruct (Nat.compare_spec (second t) (second t')); [|split; [done|lia]..].
  done.
Qed.

(** X7. Paths allocated in one directory are ordered like the clock: for
    two clock readings with four-digit years, the names and the paths that
    [get_next_path] returns compare (as [sorted] in [list_all] compares
    them) exactly as the readings do down to the second; so the listing is
    in order of capture, and two allocations yield the same path exactly
    when they fall into the same second. *)
Theorem get_next_path_chronological (now now' : datetime)
    (w w1 w' w1' : world) (base : PurePath) :
  in_range now → in_range now' →
  get_base_path w = (w1, Ok base) → get_base_path w' = (w1', Ok base) →
  ∃ w2 w2' p p',
    get_next_path now w = (w2, Ok p) ∧ get_next_path now' w' = (w2', Ok p')
    ∧ str_compare (name p) (name p') = chron_compare now now'
    ∧ path_compare p p' = chron_compare now now'
    ∧ (p = p' ↔ same_second now now').
Proof.
  intros Hr Hr' G G'.
  do 2 eexists. exists (mkPath (root base) (parts base ++ [strftime now])),
    (mkPath (root base) (parts base ++ [strftime now'])).
  split; [by rewrite get_next_path_unfold, G, truediv_strftime|].
  split; [by rewrite get_next_path_unfold, G', truediv_strftime|].
  assert (∀ x, parts base ++ [x] ≠ []) as Hne
    by (intros x; by destruct (parts base)).
  split; [|split].
  - rewrite !name_snoc. by apply str_compare_strftime.
  - rewrite siblings_compare_name.
    + rewrite !name_snoc. by apply str_compare_strftime.
    + by rewrite !parent_snoc.
    + apply Hne.
    + apply Hne.
  - rewrite <-chron_compare_eq, <-(str_compare_strftime now now') by done.
    split.
    + intros Heq. apply (cmp_eq (cmp:=str_compare)).
      apply (f_equal name) in Heq. by rewrite !name_snoc in Heq.
    + intros E%(cmp_eq (cmp:=str_compare)). by rewrite E.
Qed.

(** In [/snap] the path of 09:59:59 comes before the one of 10:00:00. *)
Lemma get_next_path_chronological_witness :
  ∃ w2 w2' p p',
    get_next_path t_first (w4 2 unlocked) = (w2, Ok p)
    ∧ get_next_path t_next (w4 2 unlocked) = (w2', Ok p')
    ∧ path_compare p p' = Lt.
Proof.
  destruct (get_next_path_chronological t_first t_next
              (w4 2 unlocked) (w4 2 unlocked) (w4 2 unlocked) (w4 2 unlocked)
              (mkPath "/" ["snap"]))
    as (w2 & w2' & p & p' & N & N' & _ & Hc & _).
  - unfold in_range. simpl. lia.
  - unfold in_range. simpl. lia.
  - reflexivity.
  - reflexivity.
  - exists w2, w2', p, p'. split; [exact N|]. split; [exact N'|exact Hc].
Defined.

(** X8. [get_next_path] fails exactly when resolving the base directory
    fails, with the same exception; [last_snapshot] and the rest of the
    configuration then keep their values: the slot is written only after
    the directory has been resolved. *)
Theorem get_next_path_failure (now : datetime) (w w1 : world) (e : exn) :
  (get_next_path now w = (w1, Raise e) ↔ get_base_path w = (w1, Raise e))
  ∧ (get_next_path now w = (w1, Raise e) → config w1 = config w).
Proof.
  assert (get_next_path now w = (w1, Raise e)
          ↔ get_base_path w = (w1, Raise e)) as H.
  { rewrite get_next_path_unfold.
    destruct (get_base_path w) as [w' [base|e']]; split; try done;
      by intros [= -> ->]. }
  split; [done|]. intros G%H.
  by apply get_base_path_spec in G as (fs1 & -> & _ & _).
Qed.

(** With an empty [snapshot_path] no path is allocated and the slot stays
    unset. *)
Lemma get_next_path_failure_witness :
  get_next_path noon wE
  = (wE, Raise (ValueError "snapshot_path must not be empty"))
  ∧ last_snapshot (config wE) = None.
Proof.
  split; [|reflexivity].
  apply (proj1 (get_next_path_failure noon wE wE
                  (ValueError "snapshot_path must not be empty"))).
  reflexivity.
Defined.

(** ** The text written to [last_snapshot] *)

Lemma append_assoc a b c : (a +:+ b) +:+ c = a +:+ b +:+ c.
Proof.
  induction a as [|x a IH]; [done|]. rewrite !append_cons. by rewrite IH.
Qed.

Lemma append_empty a b : a +:+ b = "" → a = "" ∧ b = "".
Proof. destruct a; [done|]. rewrite append_cons. discriminate. Qed.

Lemma join_snoc ps x :
  ps ≠ [] → join "/" (ps ++ [x]) = join "/" ps +:+ "/" +:+ x.
Proof.
  induction ps as [|y ps IH]; [done|]. intros _.
  destruct ps as [|z ps]; [done|].
  change (y +:+ "/" +:+ join "/" ((z :: ps) ++ [x])
          = (y +:+ "/" +:+ join "/" (z :: ps)) +:+ "/" +:+ x).
  rewrite IH by done. by rewrite !append_assoc.
Qed.

Lemma join_nonempty ps :
  ps ≠ [] → Forall (λ x, x ≠ "") ps → join "/" ps ≠ "".
Proof.
  destruct ps as [|y ps]; [done|]. intros _ [Hy _]%Forall_cons.
  destruct ps as [|z ps]; [done|].
  change (y +:+ "/" +:+ join "/" (z :: ps) ≠ "").
  by intros [? _]%append_empty.
Qed.

Lemma Path_parts_nonempty s : Forall (λ x, x ≠ "") (parts (Path s)).
Proof.
  unfold Path. simpl. apply Forall_forall. intros x Hx.
  apply elem_of_List_filter in Hx as [_ Hx]. unfold is_component in Hx.
  apply andb_true_iff in Hx as [Hx _]. apply negb_true_iff in Hx.
  by apply String.eqb_neq in Hx.
Qed.

Lemma str_nonempty r ps :
  r +:+ join "/" ps ≠ "" → str (mkPath r ps) = r +:+ join "/" ps.
Proof. intros H. unfold str. simpl. apply String.eqb_neq in H. by rewrite H. Qed.

Lemma str_child base x :
  x ≠ "" → Forall (λ y, y ≠ "") (parts base) →
  str (mkPath (root base) (parts base ++ [x])) =
    match parts base with
    | [] => root base +:+ x
    | _ :: _ => str base +:+ "/" +:+ x
    end.
Proof.
  intros Hx Hparts. destruct base as [r ps]. simpl in *.
  destruct ps as [|y ps].
  - apply str_nonempty. simpl. by intros [_ ?]%append_empty.
  - rewrite !str_nonempty.
    + rewrite join_snoc by done. by rewrite !append_assoc.
    + intros [_ H]%append_empty. by apply join_nonempty in H.
    + rewrite join_snoc by done.
      intros [_ [_ [_ H]%append_empty]%append_empty]%append_empty. done.
Qed.

Lemma strftime_nonempty t : strftime t ≠ "".
Proof. unfold strftime, dec4. cbv [String.append]. discriminate. Qed.

(** X9. The value of [last_snapshot]: after [get_next_path] the slot holds
    the text of the base directory (as [pathlib] prints the configured
    path: without doubled or trailing separators and without "."
    components), a single "/", and the file name; when the base directory
    is a bare root or the working directory, it holds the root followed by
    the file name. *)
Theorem last_snapshot_text (now : datetime) (w w1 : world) (base : PurePath) :
  get_base_path w = (w1, Ok base) →
  ∃ w2 p, get_next_path now w = (w2, Ok p)
    ∧ last_snapshot (config w2) =
        Some (match parts base with
              | [] => root base +:+ strftime now
              | _ :: _ => str base +:+ "/" +:+ strftime now
              end).
Proof.
  intros G. do 2 eexists.
  split; [by rewrite get_next_path_unfold, G, truediv_strftime|]. simpl.
  f_equal. apply str_child; [apply strftime_nonempty|].
  apply get_base_path_spec in G as (fs1 & _ & _ & H).
  destruct (H base eq_refl) as (-> & _ & _). apply Path_parts_nonempty.
Qed.

(** Configured as "/var//lib/snap/", the directory prints as
    "/var/lib/snap". *)
Lemma last_snapshot_text_witness :
  ∃ w2 p,
    get_next_path noon (mkWorld (mkConfig 2 (Some "/var//lib/snap/") None) ∅ [])
    = (w2, Ok p)
    ∧ last_snapshot (config w2) = Some "/var/lib/snap/2024-05-17 12:00:00.jpg".
Proof.
  destruct (last_snapshot_text noon
              (mkWorld (mkConfig 2 (Some "/var//lib/snap/") None) ∅ [])
              (get_base_path
                 (mkWorld (mkConfig 2 (Some "/var//lib/snap/") None) ∅ [])).1
              (Path "/var//lib/snap/")) as (w2 & p & N & Hl).
  - reflexivity.
  - exists w2, p. split; [exact N | exact Hl].
Defined.

(** ** Successful captures *)

Lemma stat_insert_ne fs p q n : p ≠ q → stat (<[p := n]> fs) q = stat fs q.
Proof.
  intros H. unfold stat. destruct (parts q); [done|]. by rewrite lookup_insert_ne.
Qed.

Lemma settled_insert_child fs base p n :
  settled fs base → parent p = base → parts p ≠ [] →
  settled (<[p := n]> fs) base.
Proof.
  intros [Hd Hp] Hpar Hne.
  assert (p ≠ base) as H1 by (rewrite <-Hpar; by apply child_ne_parent).
  assert (p ≠ parent base) as H2.
  { intros E. apply parts_parent_length in Hne. rewrite Hpar in Hne.
    pose proof (parent_length_le base) as Hle. rewrite <-E, Hne in Hle. lia. }
  split.
  - unfold is_dir. by rewrite stat_insert_ne.
  - by rewrite stat_insert_ne.
Qed.

Lemma name_lt_asym p q : name_lt p q → name_lt q p → False.
Proof.
  unfold name_lt. intros H1 H2.
  rewrite (cmp_opp (cmp:=str_compare) (name p) (name q)), H1 in H2. done.
Qed.

(** What follows once the captured bytes are in the file. *)
Lemma store_then_cleanup now w w2 path data :
  get_next_path now w = (w2, Ok path) →
  ∃ files,
    list_all (with_file w2 path data) = (with_file w2 path data, Ok files)
    ∧ path ∈ files
    ∧ (snapshot_keep (config w) ≤ 0 →
       cleanup (with_file w2 path data) = (with_file w2 path data, Ok ()))
    ∧ (0 < snapshot_keep (config w) →
       ∃ w4, cleanup (with_file w2 path data) = (w4, Ok ())
         ∧ (Forall (λ p, unlinkable (disk (with_file w2 path data)) p = true)
              files →
            ∃ l, list_all w4 = (w4, Ok l)
                 ∧ Z.of_nat (length l) ≤ snapshot_keep (config w)
                 ∧ (∀ p, p ∈ l → p ∈ files))
         ∧ ((∀ q, q ∈ files → q ≠ path → name_lt q path) →
            disk w4 !! path = Some (File data false))).
Proof.
  intros N. pose proof N as N'. rewrite get_next_path_unfold in N'.
  destruct (get_base_path w) as [w1 [base|e]] eqn:G; [|done].
  rewrite truediv_strftime in N'. injection N' as <- <-.
  apply get_base_path_spec in G as (fs1 & -> & Hg & H).
  destruct (H base eq_refl) as (-> & Hs & F).
  set (path := mkPath _ _). set (w3 := with_file _ path data).
  assert (parent path = base_of w) as Hpar
    by (unfold path; rewrite parent_snoc; by destruct (base_of w)).
  assert (parts path ≠ []) as Hne
    by (unfold path; cbn [parts]; by intros [_ ?]%app_eq_nil).
  assert (config w3 = mkConfig (snapshot_keep (config w))
            (snapshot_path (config w)) (Some (str path))) as Hcfg by done.
  assert (get_base_path w3 = (w3, Ok (base_of w))) as G3.
  { apply (get_base_path_settled w3); [by rewrite Hcfg|].
    by apply settled_insert_child. }
  pose proof (list_all_ok _ _ _ G3) as L3.
  exists (listing (disk w3) (base_of w)). split; [done|].
  assert (path ∈ listing (disk w3) (base_of w)) as Hin.
  { apply elem_of_listing. split; [done|]. apply is_file_lookup.
    split; [done|]. exists data, false. apply lookup_insert_eq. }
  split; [done|]. split.
  - intros Hk. rewrite cleanup_unfold, Hcfg. simpl.
    by destruct (Z.leb_spec (snapshot_keep (config w)) 0) as [_|?]; [|lia].
  - intros Hk.
    assert (0 < snapshot_keep (config w3)) as Hk3 by (by rewrite Hcfg).
    destruct (cleanup_then_list w3 w3 _ Hk3 L3)
      as (w4 & k & C & Hkdef & Hcfg4 & Hdisk & L4).
    rewrite Hcfg in Hkdef. cbn [snapshot_keep] in Hkdef.
    set (files := listing (disk w3) (base_of w)) in *.
    exists w4. split; [done|]. split.
    + intros Hall. eexists. split; [exact L4|].
      assert (List.filter (λ p, negb (unlinkable (disk w3) p)) (take k files)
              = []) as ->.
      { trans (List.filter (λ _ : PurePath, false) (take k files));
          [|apply List.filter_false].
        apply filter_ext_in. intros p Hp%list_elem_of_In.
        rewrite Forall_forall in Hall.
        by rewrite Hall by (by eapply subseteq_take). }
      rewrite app_nil_l. split; [rewrite length_drop; lia|].
      intros p Hp. by eapply subseteq_drop.
    + intros Hgreatest. rewrite Hdisk, lookup_purge.
      case_decide as Hd; [|apply lookup_insert_eq].
      exfalso. destruct Hd as [Ht _].
      assert (StronglySorted name_lt (take k files ++ drop k files)) as Hsorted
        by (rewrite take_drop; apply listing_ascending).
      assert (NoDup (take k files ++ drop k files)) as Hnd
        by (rewrite take_drop; apply NoDup_listing).
      assert (k < length files)%nat as Hlen.
      { apply elem_of_take in Ht as (i & Hi & Hlt).
        apply lookup_lt_Some in Hi. lia. }
      destruct (drop k files) as [|b rest] eqn:Hdrop.
      { apply (f_equal length) in Hdrop. rewrite length_drop in Hdrop.
        simpl in Hdrop. lia. }
      assert (b ∈ files) as Hb
        by (apply (subseteq_drop k); rewrite Hdrop; by left).
      assert (b ≠ path) as Hbp.
      { intros ->. apply NoDup_app in Hnd as (_ & Hdis & _).
        apply (Hdis path Ht). by left. }
      apply (name_lt_asym path b); [|by apply Hgreatest].
      eapply (StronglySorted_app_1_elem_of name_lt (take k files));
        [done|done|by left].
Qed.

Lemma PicamSnapshotAction_call_ok image now w :
  PicamSnapshotAction_call (CaptureOk image) now w =
    match get_next_path now w with
    | (w2, Ok path) =>
        match os_open_wb path (disk w2) with
        | inl e => (w2, Raise (OSError e))
        | inr fs3 => cleanup (with_disk w2 (os_write path image fs3))
        end
    | (w2, Raise e) => (w2, Raise e)
    end.
Proof.
  unfold PicamSnapshotAction_call, mbind, M_bind.
  destruct (get_next_path now w) as [w2 [path|e]]; [|done].
  unfold write_file, mbind, M_bind, Path_open_wb, syscall.
  by destruct (os_open_wb path (disk w2)).
Qed.

Lemma get_next_path_keep now w w2 path :
  get_next_path now w = (w2, Ok path) →
  snapshot_keep (config w2) = snapshot_keep (config w).
Proof. by intros (fs1 & -> & _)%get_next_path_spec. Qed.

(** X10. A URL capture that returns normally. Its result is what [cleanup]
    makes of the world in which the target file holds the chunks in the
    order received, and nothing of what a file of that name held before.
    With [snapshot_keep] zero or negative that world is the result. With a
    positive [snapshot_keep] the new file is listed before pruning; if no
    listed file resists deletion, at most [snapshot_keep] files are listed
    afterwards; and if the new name is the greatest in the directory, the
    new file is still there with its content. *)
Theorem url_capture_success (now : datetime) (w w2 w4 : world)
    (path : PurePath) (chunks : list (list Byte.byte)) :
  get_next_path now w = (w2, Ok path) →
  URLSnapshotAction_call (Streams chunks true) now w = (w4, Ok ()) →
  cleanup (with_file w2 path (concat chunks)) = (w4, Ok ())
  ∧ (snapshot_keep (config w) ≤ 0 → w4 = with_file w2 path (concat chunks))
  ∧ (0 < snapshot_keep (config w) →
     ∃ files,
       list_all (with_file w2 path (concat chunks))
       = (with_file w2 path (concat chunks), Ok files)
       ∧ path ∈ files
       ∧ (Forall (λ p, unlinkable
                         (disk (with_file w2 path (concat chunks))) p
                       = true) files →
          ∃ l, list_all w4 = (w4, Ok l)
               ∧ Z.of_nat (length l) ≤ snapshot_keep (config w)
               ∧ (∀ p, p ∈ l → p ∈ files))
       ∧ ((∀ q, q ∈ files → q ≠ path → name_lt q path) →
          disk w4 !! path = Some (File (concat chunks) false))).
Proof.
  intros N C.
  assert (cleanup (with_file w2 path (concat chunks)) = (w4, Ok ())) as C'.
  { rewrite URLSnapshotAction_call_unfold, N in C.
    destruct (os_open_wb path (disk w2)) as [e|fs3] eqn:O; [done|].
    apply os_open_wb_inr in O as ->. by rewrite write_all_insert in C. }
  destruct (store_then_cleanup now w w2 path (concat chunks) N)
    as (files & L & Hin & H0 & Hpos).
  split; [done|]. split.
  - intros Hk. rewrite (H0 Hk) in C'. by injection C'.
  - intros Hk. destruct (Hpos Hk) as (w' & E & Hbound & Hstay).
    rewrite C' in E. injection E as <-. by exists files.
Qed.

(** With the snapshots of 09:59:59 and 10:00:00 in [/snap] and
    [snapshot_keep = 2], the snapshot of noon is stored with both chunks and
    survives the pruning, the snapshot of 09:59:59 is deleted, and two
    files are listed afterwards. *)
Lemma url_capture_success_witness :
  URLSnapshotAction_call good_stream noon (w_day 2)
  = (w_day_noon [Byte.x4a; Byte.x46; Byte.x49; Byte.x46], Ok ())
  ∧ disk (w_day_noon [Byte.x4a; Byte.x46; Byte.x49; Byte.x46])
      !! snap "2024-05-17 12:00:00.jpg"
    = Some (File [Byte.x4a; Byte.x46; Byte.x49; Byte.x46] false)
  ∧ ∃ l, list_all (w_day_noon [Byte.x4a; Byte.x46; Byte.x49; Byte.x46])
         = (w_day_noon [Byte.x4a; Byte.x46; Byte.x49; Byte.x46], Ok l)
         ∧ Z.of_nat (length l) ≤ 2.
Proof.
  assert (URLSnapshotAction_call good_stream noon (w_day 2)
          = (w_day_noon [Byte.x4a; Byte.x46; Byte.x49; Byte.x46], Ok ()))
    as C by reflexivity.
  split; [exact C|].
  destruct (url_capture_success noon (w_day 2)
              (with_last_snapshot (w_day 2) "/snap/2024-05-17 12:00:00.jpg")
              (w_day_noon [Byte.x4a; Byte.x46; Byte.x49; Byte.x46])
              (snap "2024-05-17 12:00:00.jpg")
              [[Byte.x4a; Byte.x46]; [Byte.x49; Byte.x46]])
    as (_ & _ & H); [reflexivity | exact C |].
  destruct H as (files & L & _ & Hbound & Hkeep); [simpl; lia|].
  assert ((list_all (with_file
             (with_last_snapshot (w_day 2) "/snap/2024-05-17 12:00:00.jpg")
             (snap "2024-05-17 12:00:00.jpg")
             (concat [[Byte.x4a; Byte.x46]; [Byte.x49; Byte.x46]]))).2
          = Ok [snap "2024-05-17 09:59:59.jpg"; snap "2024-05-17 10:00:00.jpg";
                snap "2024-05-17 12:00:00.jpg"]) as L' by reflexivity.
  rewrite L in L'. injection L' as ->.
  split.
  - apply Hkeep. intros q Hq Hne.
    apply elem_of_cons in Hq as [->|Hq]; [reflexivity|].
    apply elem_of_cons in Hq as [->|Hq]; [reflexivity|].
    apply elem_of_cons in Hq as [->|Hq]; [destruct Hne; reflexivity|].
    destruct (proj1 (elem_of_nil q) Hq).
  - destruct Hbound as (l & Hl & Hlen & _); [repeat constructor|].
    exists l. split; [exact Hl | exact Hlen].
Defined.

(** X11. A camera capture that returns normally behaves the same way: its
    result is what [cleanup] makes of the world in which the target file
    holds the image. With [snapshot_keep] zero or negative that world is the
    result. With a positive [snapshot_keep] the image is listed before
    pruning; at most that many files are listed afterwards if none resists
    deletion; and the image is still there if its name is the greatest in
    the directory. *)
Theorem picam_capture_success (now : datetime) (w w2 w4 : world)
    (path : PurePath) (image : list Byte.byte) :
  get_next_path now w = (w2, Ok path) →
  PicamSnapshotAction_call (CaptureOk image) now w = (w4, Ok ()) →
  cleanup (with_file w2 path image) = (w4, Ok ())
  ∧ (snapshot_keep (config w) ≤ 0 → w4 = with_file w2 path image)
  ∧ (0 < snapshot_keep (config w) →
     ∃ files,
       list_all (with_file w2 path image) = (with_file w2 path image, Ok files)
       ∧ path ∈ files
       ∧ (Forall (λ p, unlinkable (disk (with_file w2 path image)) p = true)
            files →
          ∃ l, list_all w4 = (w4, Ok l)
               ∧ Z.of_nat (length l) ≤ snapshot_keep (config w)
               ∧ (∀ p, p ∈ l → p ∈ files))
       ∧ ((∀ q, q ∈ files → q ≠ path → name_lt q path) →
          disk w4 !! path = Some (File image false))).
Proof.
  intros N C.
  assert (cleanup (with_file w2 path image) = (w4, Ok ())) as C'.
  { rewrite PicamSnapshotAction_call_ok, N in C.
    destruct (os_open_wb path (disk w2)) as [e|fs3] eqn:O; [done|].
    apply os_open_wb_inr in O as ->. by rewrite os_write_insert in C. }
  destruct (store_then_cleanup now w w2 path image N)
    as (files & L & Hin & H0 & Hpos).
  split; [done|]. split.
  - intros Hk. rewrite (H0 Hk) in C'. by injection C'.
  - intros Hk. destruct (Hpos Hk) as (w' & E & Hbound & Hstay).
    rewrite C' in E. injection E as <-. by exists files.
Qed.

(** With the snapshots of 09:59:59 and 10:00:00 in [/snap] and
    [snapshot_keep = 2], the image taken at noon is stored and survives the
    pruning, the snapshot of 09:59:59 is deleted, and two files are listed
    afterwards. *)
Lemma picam_capture_success_witness :
  PicamSnapshotAction_call (CaptureOk [Byte.x4a]) noon (w_day 2)
  = (w_day_noon [Byte.x4a], Ok ())
  ∧ disk (w_day_noon [Byte.x4a]) !! snap "2024-05-17 12:00:00.jpg"
    = Some (File [Byte.x4a] false)
  ∧ ∃ l, list_all (w_day_noon [Byte.x4a]) = (w_day_noon [Byte.x4a], Ok l)
         ∧ Z.of_nat (length l) ≤ 2.
Proof.
  assert (PicamSnapshotAction_call (CaptureOk [Byte.x4a]) noon (w_day 2)
          = (w_day_noon [Byte.x4a], Ok ())) as C by reflexivity.
  split; [exact C|].
  destruct (picam_capture_success noon (w_day 2)
              (with_last_snapshot (w_day 2) "/snap/2024-05-17 12:00:00.jpg")
              (w_day_noon [Byte.x4a])
              (snap "2024-05-17 12:00:00.jpg") [Byte.x4a])
    as (_ & _ & H); [reflexivity | exact C |].
  destruct H as (files & L & _ & Hbound & Hkeep); [simpl; lia|].
  assert ((list_all (with_file
             (with_last_snapshot (w_day 2) "/snap/2024-05-17 12:00:00.jpg")
             (snap "2024-05-17 12:00:00.jpg") [Byte.x4a])).2
          = Ok [snap "2024-05-17 09:59:59.jpg"; snap "2024-05-17 10:00:00.jpg";
                snap "2024-05-17 12:00:00.jpg"]) as L' by reflexivity.
  rewrite L in L'. injection L' as ->.
  split.
  - apply Hkeep. intros q Hq Hne.
    apply elem_of_cons in Hq as [->|Hq]; [reflexivity|].
    apply elem_of_cons in Hq as [->|Hq]; [reflexivity|].
    apply elem_of_cons in Hq as [->|Hq]; [destruct Hne; reflexivity|].
    destruct (proj1 (elem_of_nil q) Hq).
  - destruct Hbound as (l & Hl & Hlen & _); [repeat constructor|].
    exists l. split; [exact Hl | exact Hlen].
Defined.

(** ** A snapshot that is pruned at once *)

Lemma elem_of_later_names p files q :
  q ∈ later_names p files ↔ q ∈ files ∧ name_lt p q.
Proof.
  unfold later_names, name_lt. rewrite elem_of_List_filter.
  destruct (str_compare (name p) (name q)); split; intros [? ?]; done.
Qed.

Lemma store_then_pruned now w w2 path data files :
  get_next_path now w = (w2, Ok path) →
  0 < snapshot_keep (config w) →
  list_all (with_file w2 path data) = (with_file w2 path data, Ok files) →
  snapshot_keep (config w) ≤ Z.of_nat (length (later_names path files)) →
  ∃ w4, cleanup (with_file w2 path data) = (w4, Ok ())
    ∧ disk w4 !! path = None
    ∧ last_snapshot (config w4) = Some (str path).
Proof.
  intros N Hk L3 Hlater.
  destruct (store_then_cleanup now w w2 path data N) as (files' & L3' & Hin & _).
  rewrite L3 in L3'. injection L3' as <-.
  pose proof (get_next_path_keep _ _ _ _ N) as Hkeep.
  assert (0 < snapshot_keep (config (with_file w2 path data))) as Hk3
    by (simpl; lia).
  destruct (cleanup_then_list _ _ _ Hk3 L3)
    as (w4 & k & C & Hkdef & Hcfg4 & Hdisk & _).
  cbn [with_file with_disk config] in Hkdef. rewrite Hkeep in Hkdef.
  exists w4. split; [done|]. split.
  2:{ rewrite Hcfg4. by apply get_next_path_spec in N as (fs1 & -> & _). }
  apply list_all_inv in L3 as [_ Hfiles].
  assert (StronglySorted name_lt (take k files ++ drop k files)) as Hsorted
    by (rewrite take_drop, Hfiles; apply listing_ascending).
  assert (NoDup files) as Hnd by (rewrite Hfiles; apply NoDup_listing).
  assert (path ∈ take k files) as Ht.
  { rewrite <-(take_drop k files) in Hin. apply elem_of_app in Hin as [?|Hd];
      [done|]. exfalso.
    assert (List.NoDup (path :: later_names path files)) as Hnd'.
    { apply NoDup_ListNoDup, NoDup_cons. split.
      - intros [_ Hlt]%elem_of_later_names. unfold name_lt in Hlt.
        by rewrite (cmp_refl str_compare) in Hlt.
      - by apply NoDup_ListNoDup, List.NoDup_filter, NoDup_ListNoDup. }
    assert (incl (path :: later_names path files) (drop k files)) as Hincl.
    { intros q [<-|Hq]; [by apply list_elem_of_In|].
      apply list_elem_of_In, elem_of_later_names in Hq as [Hq Hlt].
      apply list_elem_of_In. rewrite <-(take_drop k files) in Hq.
      apply elem_of_app in Hq as [Hq|?]; [|done]. exfalso.
      apply (name_lt_asym path q); [done|].
      by eapply (StronglySorted_app_1_elem_of name_lt (take k files)). }
    apply NoDup_incl_length in Hincl; [|done].
    simpl in Hincl. rewrite length_drop in Hincl. lia. }
  rewrite Hdisk, lookup_purge. rewrite decide_True; [done|]. split; [done|].
  apply unlinkable_spec. exists data. simpl.
  assert (parts path ≠ []) as Hne.
  { rewrite Hfiles in Hin. by apply listing_siblings in Hin as [_ ?]. }
  rewrite stat_lookup by done. apply lookup_insert_eq.
Qed.

(** X12. A snapshot can be pruned by its own capture: when, with a positive
    [snapshot_keep], at least that many files of the directory have names
    after the new one (files not named by the clock, or a clock set back),
    the successful URL capture returns normally, the file just written is
    gone again, and [last_snapshot] names it all the same. *)
Theorem url_capture_pruned (now : datetime) (w w2 : world) (path : PurePath)
    (chunks : list (list Byte.byte)) (fs3 : gmap PurePath node)
    (files : list PurePath) :
  get_next_path now w = (w2, Ok path) →
  os_open_wb path (disk w2) = inr fs3 →
  0 < snapshot_keep (config w) →
  list_all (with_file w2 path (concat chunks))
  = (with_file w2 path (concat chunks), Ok files) →
  snapshot_keep (config w) ≤ Z.of_nat (length (later_names path files)) →
  ∃ w4, URLSnapshotAction_call (Streams chunks true) now w = (w4, Ok ())
    ∧ disk w4 !! path = None
    ∧ last_snapshot (config w4) = Some (str path).
Proof.
  intros N O Hk L Hlater.
  assert (URLSnapshotAction_call (Streams chunks true) now w
          = cleanup (with_file w2 path (concat chunks))) as ->.
  { rewrite URLSnapshotAction_call_unfold, N, O.
    apply os_open_wb_inr in O as ->. by rewrite write_all_insert. }
  by apply (store_then_pruned now w w2 path (concat chunks) files).
Qed.

(** Among [t1] to [t4] the snapshot of noon has the smallest name: with
    [snapshot_keep = 2] it is deleted by the capture that wrote it. *)
Lemma url_capture_pruned_witness :
  ∃ w', URLSnapshotAction_call good_stream noon (w4 2 unlocked) = (w', Ok ())
    ∧ disk w' !! snap "2024-05-17 12:00:00.jpg" = None
    ∧ last_snapshot (config w') = Some "/snap/2024-05-17 12:00:00.jpg".
Proof.
  apply (url_capture_pruned noon (w4 2 unlocked)
           (with_last_snapshot (w4 2 unlocked) "/snap/2024-05-17 12:00:00.jpg")
           (snap "2024-05-17 12:00:00.jpg")
           [[Byte.x4a; Byte.x46]; [Byte.x49; Byte.x46]]
           (<[snap "2024-05-17 12:00:00.jpg" := File [] false]>
              (disk4 unlocked))
           (snap "2024-05-17 12:00:00.jpg" :: files4)).
  - reflexivity.
  - reflexivity.
  - reflexivity.
  - reflexivity.
  - cbv -[Z.le]. lia.
Defined.

(** ** Captures that cannot store their file *)

(** X13. Without a snapshot directory no capture gets anywhere: with
    [snapshot_path] empty or unset, the URL action (once the request has
    been answered) and the camera action (once the camera is open) raise
    [ValueError] and leave the world exactly as it was: no file, no log
    entry, [last_snapshot] unchanged, no pruning. *)
Theorem capture_unconfigured (now : datetime) (w : world) :
  falsy (snapshot_path (config w)) = true →
  (∀ chunks complete,
     URLSnapshotAction_call (Streams chunks complete) now w
     = (w, Raise (ValueError "snapshot_path must not be empty")))
  ∧ (∀ written,
       PicamSnapshotAction_call (CaptureFails written) now w
       = (w, Raise (ValueError "snapshot_path must not be empty")))
  ∧ (∀ image,
       PicamSnapshotAction_call (CaptureOk image) now w
       = (w, Raise (ValueError "snapshot_path must not be empty"))).
Proof.
  intros F.
  assert (get_next_path now w
          = (w, Raise (ValueError "snapshot_path must not be empty"))) as N
    by (by rewrite get_next_path_unfold, get_base_path_empty).
  split; [|split].
  - intros chunks complete. by rewrite URLSnapshotAction_call_unfold, N.
  - intros written. by rewrite PicamSnapshotAction_call_fails, N.
  - intros image. by rewrite PicamSnapshotAction_call_ok, N.
Qed.

Lemma capture_unconfigured_witness :
  URLSnapshotAction_call good_stream noon wE
  = (wE, Raise (ValueError "snapshot_path must not be empty")).
Proof.
  apply (proj1 (capture_unconfigured noon wE eq_refl)).
Defined.

(** X14. When the allocated path cannot be opened for writing, because a
    directory or an immutable file of that name exists (a snapshot of the
    same second, say), both actions raise the [OSError] of [open]
    ([IsADirectoryError] or [PermissionError]) in the world allocation
    left: nothing is written or logged, the retention step is skipped, and
    [last_snapshot] names the path all the same. *)
Theorem capture_target_blocked (now : datetime) (w w2 : world)
    (path : PurePath) (e : os_error) :
  get_next_path now w = (w2, Ok path) →
  os_open_wb path (disk w2) = inl e →
  (∀ chunks complete,
     URLSnapshotAction_call (Streams chunks complete) now w
     = (w2, Raise (OSError e)))
  ∧ (∀ image,
       PicamSnapshotAction_call (CaptureOk image) now w
       = (w2, Raise (OSError e)))
  ∧ (e = EISDIR ∨ e = EPERM)
  ∧ journal w2 = journal w
  ∧ last_snapshot (config w2) = Some (str path).
Proof.
  intros N O. split; [|split; [|split; [|split]]].
  - intros chunks complete. by rewrite URLSnapshotAction_call_unfold, N, O.
  - intros image. by rewrite PicamSnapshotAction_call_ok, N, O.
  - pose proof N as N'. rewrite get_next_path_unfold in N'.
    destruct (get_base_path w) as [w1 [base|e']] eqn:G; [|done].
    rewrite truediv_strftime in N'. injection N' as <- <-.
    apply get_base_path_spec in G as (fs1 & -> & _ & H).
    destruct (H base eq_refl) as (_ & [Hd _] & _).
    revert O. unfold os_open_wb. cbn [with_last_snapshot with_disk disk].
    destruct (stat fs1 _) as [[|d [|]]|]; try (intros [= <-]; auto); try done.
    rewrite parent_snoc. unfold is_dir in Hd.
    replace (mkPath (root base) (parts base)) with base by (by destruct base).
    by destruct (stat fs1 base) as [[|]|].
  - by apply get_next_path_spec in N as (fs1 & -> & _).
  - by apply get_next_path_spec in N as (fs1 & -> & _).
Qed.

(** The snapshot of noon is immutable: a second capture at noon fails with
    [PermissionError]. *)
Lemma capture_target_blocked_witness :
  URLSnapshotAction_call good_stream noon w_noon_locked
  = (with_last_snapshot w_noon_locked "/snap/2024-05-17 12:00:00.jpg",
     Raise (OSError EPERM)).
Proof.
  apply (capture_target_blocked noon w_noon_locked
           (with_last_snapshot w_noon_locked "/snap/2024-05-17 12:00:00.jpg")
           (snap "2024-05-17 12:00:00.jpg") EPERM); reflexivity.
Defined.

(** ** Event names *)

Lemma append_inj_r a b s : a +:+ s = b +:+ s → a = b.
Proof.
  intros H. apply (f_equal list_ascii_of_string) in H.
  rewrite !list_ascii_of_string_app in H. apply app_inv_tail in H.
  by rewrite <-(string_of_list_ascii_of_string a),
    <-(string_of_list_ascii_of_string b), H.
Qed.

Lemma append_ne_self a s : s ≠ "" → a +:+ s ≠ a.
Proof.
  intros Hs H. apply (f_equal list_ascii_of_string) in H.
  rewrite list_ascii_of_string_app in H.
  rewrite <-(app_nil_r (list_ascii_of_string a)) in H at 2.
  apply app_inv_head in H. destruct s; [done|discriminate].
Qed.

(** X15. Base and shadow names: an event that [fire_event] hands over for
    asynchronous delivery has exactly the given name, one it hands over for
    synchronous delivery has the given name followed by "_S", which is
    never the given name itself; and different events have different shadow
    names. *)
Theorem fire_event_shadow_names (ev : string) (async_only : bool)
    (remote_uri : option string) (eh : list fired) :
  Forall (λ f, match how f with
               | Async => event_name f = ev
               | Sync => event_name f = ev +:+ "_S" ∧ event_name f ≠ ev
               end)
    (delivered eh (fire_event ev async_only remote_uri eh))
  ∧ (∀ ev', ev +:+ "_S" = ev' +:+ "_S" → ev = ev').
Proof.
  split.
  - rewrite fire_event_unfold, delivered_app.
    destruct async_only; repeat constructor; by apply append_ne_self.
  - intros ev'. apply append_inj_r.
Qed.

(** ** The action objects *)

(** X17. The texts of the actions identify them: two URL actions with the
    same [repr], or the same [str], have the same URL, and no URL action
    has the [repr] or the [str] of the camera action. *)
Theorem snapshot_action_texts (a b : URLSnapshotAction) :
  (URLSnapshotAction_repr a = URLSnapshotAction_repr b → a = b)
  ∧ (URLSnapshotAction_str a = URLSnapshotAction_str b → a = b)
  ∧ URLSnapshotAction_repr a ≠ PicamSnapshotAction_repr
  ∧ URLSnapshotAction_str a ≠ PicamSnapshotAction_str.
Proof.
  destruct a as [u], b as [v].
  unfold URLSnapshotAction_repr, URLSnapshotAction_str. simpl.
  split; [|split; [|split]].
  - intros H. apply (inj (String.app _)) in H. by subst.
  - intros H. apply (inj (String.app _)) in H.
    apply append_inj_r in H. by subst.
  - unfold PicamSnapshotAction_repr. cbv [String.append]. discriminate.
  - unfold PicamSnapshotAction_str. cbv [String.append]. discriminate.
Qed.

(** ** Where directories are created *)

Lemma lineage_self p : p ∈ lineage p.
Proof.
  unfold lineage. apply list_elem_of_fmap. exists (parts p).
  split; [by destruct p|apply prefixes_self].
Qed.

Lemma os_mkdir_elsewhere p fs fs' q :
  os_mkdir p fs = inr fs' → q ≠ p → fs' !! q = fs !! q.
Proof.
  intros (-> & _)%os_mkdir_inr Hq. by rewrite lookup_insert_ne.
Qed.

Lemma mkdir_exist_ok_elsewhere p w w' res q :
  mkdir_exist_ok p w = (w', res) → q ≠ p → disk w' !! q = disk w !! q.
Proof.
  unfold mkdir_exist_ok. destruct (os_mkdir p (disk w)) as [e|fs'] eqn:E.
  - destruct e, (is_dir (disk w) p); by intros [= <- <-].
  - intros [= <- <-] Hq. by eapply os_mkdir_elsewhere.
Qed.

Lemma mkdir_parents_elsewhere r rps w w' res q :
  mkdir_parents r rps w = (w', res) →
  q ∉ lineage (mkPath r (rev rps)) → disk w' !! q = disk w !! q.
Proof.
  revert w w' res. induction rps as [|x rps IH]; intros w w' res; simpl.
  - by intros [= <- <-].
  - rewrite lineage_snoc, not_elem_of_app, list_elem_of_singleton.
    destruct (os_mkdir _ (disk w)) as [e|fs'] eqn:E.
    + destruct e;
        try (destruct (is_dir (disk w) _); by intros [= <- <-]).
      destruct (mkdir_parents r rps w) as [w1 [[]|e1]] eqn:E1.
      * intros M [Hq1 Hq2]. rewrite (mkdir_exist_ok_elsewhere _ _ _ _ _ M Hq2).
        by eapply IH.
      * intros [= <- <-] [Hq1 _]. by eapply IH.
    + intros [= <- <-] [_ Hq]. by eapply os_mkdir_elsewhere.
Qed.

(** X18. [get_base_path] touches nothing off its own path: however the call
    ends, every entry that is neither the configured directory nor one of
    the directories above it is exactly as before. *)
Theorem get_base_path_elsewhere (w w' : world) (res : result PurePath) :
  get_base_path w = (w', res) →
  ∀ q, q ∉ lineage (base_of w) → disk w' !! q = disk w !! q.
Proof.
  rewrite get_base_path_unfold. destruct (falsy _); [by intros [= <- <-]|].
  destruct (Path_mkdir (base_of w) w) as [w1 [[]|e]] eqn:E;
    intros [= <- <-] q Hq; unfold Path_mkdir in E;
    eapply mkdir_parents_elsewhere; try exact E;
    rewrite rev_involutive; by destruct (base_of w).
Qed.

(** Creating "/var/lib/snap" leaves "/var/log" alone. *)
Lemma get_base_path_elsewhere_witness :
  disk (get_base_path wA).1 !! mkPath "/" ["var"; "log"] = None.
Proof.
  rewrite (get_base_path_elsewhere wA (get_base_path wA).1
             (get_base_path wA).2).
  - reflexivity.
  - by destruct (get_base_path wA).
  - intros H. unfold lineage in H. simpl in H.
    repeat (apply elem_of_cons in H as [H|H]; [discriminate H|]).
    destruct (proj1 (elem_of_nil _) H).
Defined.

(** ** The event and action texts on concrete values *)

(** The shadow of "call" is "call_S", which is not "call". *)
Lemma fire_event_shadow_names_witness :
  Forall (λ f, match how f with
               | Async => event_name f = "call"
               | Sync => event_name f = "call_S" ∧ event_name f ≠ "call"
               end)
    (delivered [] (fire_event "call" false None []))
  ∧ "call" = "call".
Proof.
  split.
  - exact (proj1 (fire_event_shadow_names "call" false None [])).
  - apply (proj2 (fire_event_shadow_names "call" false None []) "call").
    reflexivity.
Defined.

(** An action built from "http://cam/now.jpg" is the one whose [repr] is
    "snap_url:http://cam/now.jpg". *)
Lemma snapshot_action_texts_witness :
  URLSnapshotAction_repr (URLSnapshotAction_init "http://cam/now.jpg")
  = "snap_url:http://cam/now.jpg"
  ∧ URLSnapshotAction_init "http://cam/now.jpg"
    = mkURLSnapshotAction "http://cam/now.jpg".
Proof.
  split; [reflexivity|].
  apply (proj1 (snapshot_action_texts
                  (URLSnapshotAction_init "http://cam/now.jpg")
                  (mkURLSnapshotAction "http://cam/now.jpg"))).
  reflexivity.
Defined.
